(** * MICS: mixture of independently collected samples

    A shallow embedding of the free-energy solver of [mics/MICS.py] and of
    the orchestrator of [mics/mixtures.py].

    Numbers.  The program computes with numpy [float64] arrays.  They are
    modelled by the real numbers of the Standard Library: every theorem
    below is a statement about the exact-arithmetic reading of the code.

    There is no overflow, infinity or [nan]: where numpy would produce one
    (a division by zero, the logarithm or the square root of a negative
    number) the model has the value that [Rinv], [ln] and [sqrt] give
    there, and the theorems below do not rely on what that value is.

    Arrays.  A one-dimensional array is a function [nat -> R] and a
    two-dimensional one a function [nat -> nat -> R]; the shape is kept
    beside it ([m] states, [n i] configurations of sample [i]), and a
    reduction along an axis is a finite sum over that many indices.
    Indices are natural numbers: Python's negative indices are left out.

    The two source files.  [mixtures.py] validates the samples, builds the
    potentials and the initial guess, and hands the object to its method
    ([self.method.__initialize__(self)]); [MICS.py] is that method, whose
    constructor body solves the equations on the object.  The diagnostic
    output ([verbose]) is left out. *)

From Stdlib Require Import Reals Lra Lia List String Ascii Bool Arith.
From Stdlib Require Import Morphisms Setoid FunctionalExtensionality.
Import ListNotations.
Open Scope R_scope.

(** ** Arrays and reductions *)

Definition vec := nat -> R.
Definition mat := nat -> nat -> R.

(** [sum(a[k] for k in range(n))], also [np.sum] along an axis of length [n]. *)
Fixpoint rsum (n : nat) (a : nat -> R) : R :=
  match n with
  | O => 0
  | S k => rsum k a + a k
  end.

(** [np.mean] along an axis of length [n]. *)
Definition mean (n : nat) (a : nat -> R) : R := rsum n a / INR n.

(** [np.amax] along an axis of length [n]; numpy raises on an empty axis,
    which the solver never meets (the sample list is not empty). *)
Fixpoint amax (n : nat) (a : nat -> R) : R :=
  match n with
  | O => a O
  | S k => match k with
           | O => a O
           | S _ => Rmax (amax k a) (a k)
           end
  end.

(** [np.matmul] of an [r x k] by a [k x c] array, and of an array by a vector. *)
Definition matmul (k : nat) (A B : mat) : mat :=
  fun i j => rsum k (fun l => A i l * B l j).

Definition matvec (k : nat) (A : mat) (v : vec) : vec :=
  fun i => rsum k (fun l => A i l * v l).

(** [A.T] *)
Definition transpose (A : mat) : mat := fun i j => A j i.

(** [np.diag(v)] *)
Definition diag (v : vec) : mat := fun i j => if Nat.eqb i j then v i else 0.

(** [np.outer(a, b)] *)
Definition outer (a b : vec) : mat := fun i j => a i * b j.

(** [multi_dot([A, B, C])] for square arrays of side [k]. *)
Definition multi_dot3 (k : nat) (A B C : mat) : mat :=
  matmul k (matmul k A B) C.

(** ** Exceptions and outcomes *)

(** The exceptions the modelled code raises: [mics.utils.InputError] (the
    configuration error) and Python's own [TypeError], [ValueError] and
    [IndexError]. *)
Inductive exn : Type :=
| InputError (msg : string)
| TypeError (msg : string)
| ValueError (msg : string)
| IndexError (msg : string).

(** What a call does: it returns, raises, or is still running when the
    fuel given to the [while] loop is spent. *)
Inductive outcome (A : Type) : Type :=
| Return (a : A)
| Raise (e : exn)
| Running.
Arguments Return {A} a.
Arguments Raise {A} e.
Arguments Running {A}.

(** ** Samples *)

Module Sample.
(** What the orchestrator reads of a [mics.sample]: the column names and
    the rows of [s.dataset], the lambdified reduced potential
    [s.potential.lambdify()] (a function of one row), the effective
    sample size [s.neff] and the block size [s.b]. *)
Record t : Type := {
  columns : list string;
  dataset : list (list R);
  potential : list R -> R;
  neff : R;
  b : nat
}.

Definition empty : t :=
  {| columns := []; dataset := []; potential := fun _ => 0; neff := 0; b := O |}.
End Sample.

Definition sample := Sample.t.

(** [samples[i]] for an index in range. *)
Definition sample_at (samples : list sample) (i : nat) : sample :=
  nth i samples Sample.empty.

(** ** The mixture object *)

(** The attributes of [self].  An attribute that the code has not assigned
    yet (or has allocated with [np.empty]) holds zeros; none is read before
    it is written. *)
Record mixture : Type := {
  samples : list sample;
  m : nat;                 (* len(samples) *)
  n : nat -> nat;          (* self.n[i]: rows of sample i *)
  neff : vec;
  names : list string;
  u : nat -> mat;          (* self.u[i][k, t] *)
  f : vec;
  b : nat -> nat;
  pi : vec;
  P : nat -> mat;          (* self.P[i][k, t] *)
  pm : nat -> vec;         (* self.pm[i][k] *)
  u0 : nat -> vec;         (* self.u0[i][t] *)
  p0 : vec;
  iB0 : mat;
  Sp0 : mat;
  Theta : mat;
  Overlap : mat
}.

Definition zeros1 : vec := fun _ => 0.
Definition zeros2 : mat := fun _ _ => 0.

(** [self.f = ...] *)
Definition set_f (self : mixture) (f' : vec) : mixture :=
  {| samples := samples self; m := m self; n := n self; neff := neff self;
     names := names self; u := u self; f := f'; b := b self; pi := pi self;
     P := P self; pm := pm self; u0 := u0 self; p0 := p0 self;
     iB0 := iB0 self; Sp0 := Sp0 self; Theta := Theta self;
     Overlap := Overlap self |}.

(** The assignments of one Newton-Raphson pass: [self.P[i]], [self.u0[i]],
    [self.pm[i]] for every [i], then [self.p0] and [self.iB0]. *)
Definition set_pass (self : mixture) (P' : nat -> mat) (u0' pm' : nat -> vec)
    (p0' : vec) (iB0' : mat) : mixture :=
  {| samples := samples self; m := m self; n := n self; neff := neff self;
     names := names self; u := u self; f := f self; b := b self; pi := pi self;
     P := P'; pm := pm'; u0 := u0'; p0 := p0';
     iB0 := iB0'; Sp0 := Sp0 self; Theta := Theta self;
     Overlap := Overlap self |}.

(** [self.b], [self.pi] and the [np.empty] allocations of [MICS.__init__]. *)
Definition set_method (self : mixture) (b' : nat -> nat) (pi' : vec) : mixture :=
  {| samples := samples self; m := m self; n := n self; neff := neff self;
     names := names self; u := u self; f := f self; b := b'; pi := pi';
     P := fun _ => zeros2; pm := fun _ => zeros1; u0 := fun _ => zeros1;
     p0 := p0 self; iB0 := iB0 self; Sp0 := Sp0 self; Theta := Theta self;
     Overlap := Overlap self |}.

(** [self.Sp0], [self.Theta] and [self.Overlap], assigned after the loop. *)
Definition set_covariances (self : mixture) (Sp0' Theta' Overlap' : mat) : mixture :=
  {| samples := samples self; m := m self; n := n self; neff := neff self;
     names := names self; u := u self; f := f self; b := b self; pi := pi self;
     P := P self; pm := pm self; u0 := u0 self; p0 := p0 self;
     iB0 := iB0 self; Sp0 := Sp0'; Theta := Theta'; Overlap := Overlap' |}.

(** ** Covariance primitives *)

(** Modelled from the spec: [mics.utils.covariance] and
    [mics.utils.cross_covariance] are imported by [MICS.py] but their
    module is not among the sources.  The spec (4.1) describes them as
    estimates of the covariance of the mean by non-overlapping block
    averaging: the [n] configurations are cut into [n / blockSize] blocks
    (rounded down, the trailing data discarded), each block is averaged,
    and the deviations of the block averages from the mean are multiplied
    and summed.  [block_dev bsz y ym k q] is the deviation of the average
    of block [q] of row [k]. *)
Definition block_dev (bsz : nat) (y : mat) (ym : vec) (k q : nat) : R :=
  rsum bsz (fun t => y k (q * bsz + t)%nat) / INR bsz - ym k.

(** Modelled from the spec: [mics.utils.cross_covariance] (see
    [block_dev]); with [nb] blocks the sum of products is divided by
    [nb * (nb - 1)], the estimate of the covariance of a mean of [nb]
    independent block averages. *)
Definition cross_covariance (ncols : nat) (y : mat) (ym : vec) (z : mat) (zm : vec)
    (bsz : nat) : mat :=
  let nb := (ncols / bsz)%nat in
  fun k l =>
    rsum nb (fun q => block_dev bsz y ym k q * block_dev bsz z zm l q)
    / (INR nb * (INR nb - 1)).

(** Modelled from the spec: [mics.utils.covariance], the cross term of a
    quantity with itself. *)
Definition covariance (ncols : nat) (y : mat) (ym : vec) (bsz : nat) : mat :=
  cross_covariance ncols y ym y ym bsz.

(** The four equations that make [X] the Moore-Penrose pseudo-inverse of the
    square array [A] of side [k]; [mics.utils.pinv] (spec 4.1) computes it. *)
Definition on_square (k : nat) (A B : mat) : Prop :=
  forall i j, (i < k)%nat -> (j < k)%nat -> A i j = B i j.

Definition penrose (k : nat) (A X : mat) : Prop :=
  on_square k (matmul k (matmul k A X) A) A /\
  on_square k (matmul k (matmul k X A) X) X /\
  on_square k (transpose (matmul k A X)) (matmul k A X) /\
  on_square k (transpose (matmul k X A)) (matmul k X A).

(** ** The free-energy solver ([MICS.py]) *)

(** [x > y] on floats, as a boolean. *)
Definition Rgtb (x y : R) : bool := if Rgt_dec x y then true else false.

(** [any(abs(df) > tol)] for an array [df] of length [len]. *)
Fixpoint any_above (len : nat) (df : vec) (tol : R) : bool :=
  match len with
  | O => false
  | S k => any_above k df tol || Rgtb (Rabs (df k)) tol
  end.

(** The default of the keyword argument [tol=1.0E-12]. *)
Definition default_tol : R := 1 / 10 ^ 12.

Section Solver.

(** [mics.utils.pinv], applied to a square array of the given side, and
    [mics.utils.overlapSampling], applied to the potential arrays of
    [m] samples of the given sizes: both live in a module that is not
    among the sources and are taken as they come. *)
Variable pinv : nat -> mat -> mat.
Variable overlapSampling : nat -> (nat -> nat) -> (nat -> mat) -> vec.

(** *** One pass: [_newton_raphson_iteration] *)

(** [g = (self.f + np.log(pi))[:, np.newaxis]] *)
Definition nr_g (self : mixture) : vec :=
  fun k => f self k + ln (pi self k).

(** [x = g - u[i]] *)
Definition nr_x (self : mixture) (i : nat) : mat :=
  fun k t => nr_g self k - u self i k t.

(** [xmax = np.amax(x, axis=0)] *)
Definition nr_xmax (self : mixture) (i : nat) : vec :=
  fun t => amax (m self) (fun k => nr_x self i k t).

(** [numer = np.exp(x - xmax)] *)
Definition nr_numer (self : mixture) (i : nat) : mat :=
  fun k t => exp (nr_x self i k t - nr_xmax self i t).

(** [denom = np.sum(numer, axis=0)] *)
Definition nr_denom (self : mixture) (i : nat) : vec :=
  fun t => rsum (m self) (fun k => nr_numer self i k t).

(** [self.P[i] = numer / denom] *)
Definition nr_P (self : mixture) (i : nat) : mat :=
  fun k t => nr_numer self i k t / nr_denom self i t.

(** [self.u0[i] = -(xmax + np.log(denom))] *)
Definition nr_u0 (self : mixture) (i : nat) : vec :=
  fun t => - (nr_xmax self i t + ln (nr_denom self i t)).

(** [self.pm[i] = np.mean(P[i], axis=1)] *)
Definition nr_pm (self : mixture) (i : nat) : vec :=
  fun k => mean (n self i) (fun t => nr_P self i k t).

(** [p0 = self.p0 = sum(pi[i]*self.pm[i] for i in S)] *)
Definition nr_p0 (self : mixture) : vec :=
  fun k => rsum (m self) (fun i => pi self i * nr_pm self i k).

(** [B0 = np.diag(p0) - sum(pi[i]*np.matmul(P[i], P[i].T)/self.n[i] for i in S)] *)
Definition nr_B0 (self : mixture) : mat :=
  fun k l =>
    diag (nr_p0 self) k l
    - rsum (m self) (fun i =>
        pi self i * matmul (n self i) (nr_P self i) (transpose (nr_P self i)) k l
        / INR (n self i)).

(** [self.iB0 = pinv(B0)] *)
Definition nr_iB0 (self : mixture) : mat := pinv (m self) (nr_B0 self).

(** [df = np.matmul(self.iB0, pi - p0)], the full Newton step. *)
Definition nr_df_full (self : mixture) : vec :=
  matvec (m self) (nr_iB0 self) (fun k => pi self k - nr_p0 self k).

(** The whole pass: the new attributes, and the returned
    [df[1:m] - df[0]] (entry [k] of the result is [df[k+1] - df[0]]). *)
Definition newton_raphson_iteration (self : mixture) : mixture * vec :=
  let df := nr_df_full self in
  (set_pass self (nr_P self) (nr_u0 self) (nr_pm self) (nr_p0 self) (nr_iB0 self),
   fun k => df (S k) - df O).

(** [self.f[1:m] += df] *)
Definition add_correction (self : mixture) (df : vec) : mixture :=
  set_f self (fun k =>
    match k with
    | O => f self O
    | S j => if (k <? m self)%nat then f self k + df j else f self k
    end).

(** *** The loop of [MICS.__init__]

    [df] is the correction returned by the pass that has just run.  The
    [while] has no bound on the number of passes; the model gives it
    [fuel] passes and answers [None] when they are spent. *)
Fixpoint newton_loop (fuel : nat) (tol : R) (self : mixture) (df : vec)
    : option mixture :=
  match fuel with
  | O => None
  | S fuel' =>
      if any_above (m self - 1) df tol then
        let self1 := add_correction self df in
        let (self2, df2) := newton_raphson_iteration self1 in
        newton_loop fuel' tol self2 df2
      else Some self
  end.

(** [self.Sp0 = sum(pi[i]**2*covariance(P[i], pm[i], b[i]) for i in range(m))] *)
Definition final_Sp0 (self : mixture) : mat :=
  fun k l =>
    rsum (m self) (fun i =>
      pi self i ^ 2 * covariance (n self i) (P self i) (pm self i) (b self i) k l).

(** [self.Theta = multi_dot([self.iB0, self.Sp0, self.iB0])] *)
Definition final_Theta (self : mixture) (Sp0' : mat) : mat :=
  multi_dot3 (m self) (iB0 self) Sp0' (iB0 self).

(** The statements after the loop; [np.stack(pm)] has [pm[i]] as row [i]. *)
Definition finish (self : mixture) : mixture :=
  let Sp0' := final_Sp0 self in
  set_covariances self Sp0' (final_Theta self Sp0') (fun i k => pm self i k).

(** The method part of the constructor, from [b = self.b = ...] on, for a
    mixture whose samples, sizes, potentials and initial [f] are set. *)
Definition initialize (fuel : nat) (tol : R) (self : mixture) : outcome mixture :=
  let self0 :=
    set_method self
      (fun i => Sample.b (sample_at (samples self) i))
      (fun i => neff self i / rsum (m self) (neff self)) in
  let (self1, df) := newton_raphson_iteration self0 in
  match newton_loop fuel tol self1 df with
  | None => Running
  | Some self2 => Return (finish self2)
  end.

(** *** Construction ([mixture.__init__]) *)

(** [list(s.dataset.columns) != names] *)
Definition columns_differ (names : list string) (s : sample) : bool :=
  if list_eq_dec string_dec (Sample.columns s) names then false else true.

(** [multimap(potentials, s.dataset)] for [s = samples[i]]: row [k] is the
    potential of state [k] on every row of the data of sample [i]. *)
Definition potential_matrix (samples : list sample) (i : nat) : mat :=
  fun k t =>
    Sample.potential (sample_at samples k)
      (nth t (Sample.dataset (sample_at samples i)) []).

(** The attributes set before the method is entered. *)
Definition define (samples : list sample) : outcome mixture :=
  let m := List.length samples in
  if (m =? 0)%nat then Raise (InputError "list of samples is empty"%string)
  else
    let n := fun i => List.length (Sample.dataset (sample_at samples i)) in
    let neff := fun i => Sample.neff (sample_at samples i) in
    let names := Sample.columns (sample_at samples 0) in
    if existsb (columns_differ names) samples
    then Raise (InputError "provided samples have distinct properties"%string)
    else
      let u := potential_matrix samples in
      Return {| samples := samples; m := m; n := n; neff := neff;
                names := names; u := u; f := overlapSampling m n u;
                b := fun _ => O; pi := zeros1;
                P := fun _ => zeros2; pm := fun _ => zeros1;
                u0 := fun _ => zeros1; p0 := zeros1; iB0 := zeros2;
                Sp0 := zeros2; Theta := zeros2; Overlap := zeros2 |}.

(** The constructor: validation, potentials and initial guess, then the
    method ([self.method.__initialize__(self)], here the MICS solver). *)
Definition mixture_init (fuel : nat) (tol : R) (samples : list sample)
    : outcome mixture :=
  match define samples with
  | Return self => initialize fuel tol self
  | Raise e => Raise e
  | Running => Running
  end.

End Solver.

(** ** Reweighting and perturbation ([MICS.py]) *)

(** [np.block([[A, B], [C, D]])] with [A] of shape [r x c]. *)
Definition block2x2 (r c : nat) (A B C D : mat) : mat :=
  fun i j =>
    if (i <? r)%nat
    then if (j <? c)%nat then A i j else B i (j - c)%nat
    else if (j <? c)%nat then C (i - r)%nat j else D (i - r)%nat (j - c)%nat.

(** A one-dimensional array read as an array of one row. *)
Definition as_row (v : vec) : mat := fun _ t => v t.

(** A one-dimensional array read as an array of one column ([v[:, np.newaxis]]). *)
Definition as_column (v : vec) : mat := fun k _ => v k.

Section Target.

(** The converged mixture, the target potential ([u[i]] has one row, read
    here as [u i t]) and the reference state. *)
Variable self : mixture.
Variable u_t : nat -> vec.
Variable ref : nat.

(** [w = [np.exp(self.u0[i] - u[i]) for i in S]] *)
Definition tgt_w (i : nat) : vec := fun t => exp (u0 self i t - u_t i t).

(** [iw0 = 1.0/sum(pi[i]*np.mean(w[i], axis=1) for i in S)[0]] *)
Definition tgt_iw0 : R :=
  1 / rsum (m self) (fun i => pi self i * mean (n self i) (tgt_w i)).

(** [pu = sum(pi[i]*np.mean(w[i]*P[i], axis=1) for i in S)*iw0] *)
Definition tgt_pu : vec :=
  fun k =>
    rsum (m self) (fun i =>
      pi self i * mean (n self i) (fun t => tgt_w i t * P self i k t))
    * tgt_iw0.

(** [pu[ref] -= 1.0] *)
Definition tgt_pu_ref : vec :=
  fun k => if (k =? ref)%nat then tgt_pu k - 1 else tgt_pu k.

(** [np.log(iw0) - self.f[ref]] *)
Definition tgt_f : R := ln tgt_iw0 - f self ref.

(** *** [__reweight__] *)

(** The properties: [y[i]] has [ny] rows, read as [y i a t]. *)
Variable ny : nat.
Variable y : nat -> mat.

(** [z = [w[i]*y[i] for i in S]] *)
Definition rw_z (i : nat) : mat := fun a t => tgt_w i t * y i a t.

(** [yu = sum(pi[i]*np.mean(z[i], axis=1) for i in S)*iw0] *)
Definition rw_yu : vec :=
  fun a =>
    rsum (m self) (fun i => pi self i * mean (n self i) (rw_z i a)) * tgt_iw0.

(** [r = [np.concatenate((z[i], w[i])) for i in S]] *)
Definition rw_r (i : nat) : mat :=
  fun a t => if (a <? ny)%nat then rw_z i a t else tgt_w i t.

(** [rm = [np.mean(r[i], axis=1) for i in S]] *)
Definition rw_rm (i : nat) : vec := fun a => mean (n self i) (rw_r i a).

(** [Sp0r0 = sum(pi[i]**2*cross_covariance(P[i], pm[i], r[i], rm[i], b[i]) for i in S)] *)
Definition rw_Sp0r0 : mat :=
  fun k a =>
    rsum (m self) (fun i =>
      pi self i ^ 2
      * cross_covariance (n self i) (P self i) (pm self i) (rw_r i) (rw_rm i)
          (b self i) k a).

(** [Sr0 = sum(pi[i]**2*covariance(r[i], rm[i], b[i]) for i in S)] *)
Definition rw_Sr0 : mat :=
  fun a c =>
    rsum (m self) (fun i =>
      pi self i ^ 2 * covariance (n self i) (rw_r i) (rw_rm i) (b self i) a c).

(** [Ss0 = np.block([[self.Sp0, Sp0r0], [Sp0r0.T, Sr0]])] *)
Definition rw_Ss0 : mat :=
  block2x2 (m self) (m self) (Sp0 self) rw_Sp0r0 (transpose rw_Sp0r0) rw_Sr0.

(** [pytu = sum(pi[i]*np.matmul(P[i], z[i].T)/self.n[i] for i in S)*iw0] *)
Definition rw_pytu : mat :=
  fun k a =>
    rsum (m self) (fun i =>
      pi self i * matmul (n self i) (P self i) (transpose (rw_z i)) k a
      / INR (n self i))
    * tgt_iw0.

(** [Dyup0 = np.matmul(self.iB0, np.outer(pu, yu) - pytu)], with [pu] as it
    is before [pu[ref] -= 1.0]. *)
Definition rw_Dyup0 : mat :=
  matmul (m self) (iB0 self) (fun k a => outer tgt_pu rw_yu k a - rw_pytu k a).

(** [Dyuz0 = np.diag(np.repeat(iw0, len(yu)))] *)
Definition rw_Dyuz0 : mat := diag (fun _ => tgt_iw0).

(** [Dyuw0 = -yu[np.newaxis, :]*iw0] *)
Definition rw_Dyuw0 : mat := fun _ a => - rw_yu a * tgt_iw0.

(** [Dfup0 = np.matmul(self.iB0, pu[:, np.newaxis])], after [pu[ref] -= 1.0]. *)
Definition rw_Dfup0 : mat := matmul (m self) (iB0 self) (as_column tgt_pu_ref).

(** [G = np.block([[Dfup0, Dyup0], [Dfuz0, Dyuz0], [Dfuw0, Dyuw0]])], with
    [Dfuz0 = np.zeros([len(yu), 1])] and [Dfuw0 = iw0]. *)
Definition rw_G : mat :=
  fun a c =>
    if (a <? m self)%nat then
      if (c <? 1)%nat then rw_Dfup0 a c else rw_Dyup0 a (c - 1)%nat
    else if (a <? m self + ny)%nat then
      if (c <? 1)%nat then 0 else rw_Dyuz0 (a - m self)%nat (c - 1)%nat
    else
      if (c <? 1)%nat then tgt_iw0 else rw_Dyuw0 (a - m self - ny)%nat (c - 1)%nat.

(** [Theta = multi_dot([G.T, Ss0, G])] *)
Definition rw_Theta : mat :=
  multi_dot3 (m self + ny + 1) (transpose rw_G) rw_Ss0 rw_G.

(** [return np.concatenate([fu, yu]), Theta]; [self.f[ref]] and [pu[ref]]
    raise for a reference that is not a state. *)
Definition reweight : outcome (vec * mat) :=
  if (ref <? m self)%nat then
    Return (fun c => if (c <? 1)%nat then tgt_f else rw_yu (c - 1)%nat, rw_Theta)
  else Raise (IndexError "index out of bounds"%string).

(** *** [__perturb__] *)

(** [wm = [np.mean(w[i], axis=1) for i in S]] *)
Definition pt_wm (i : nat) : vec := fun _ => mean (n self i) (tgt_w i).

(** [Sp0w0 = sum(pi[i]**2*cross_covariance(P[i], pm[i], w[i], wm[i], b[i]) for i in S)] *)
Definition pt_Sp0w0 : mat :=
  fun k a =>
    rsum (m self) (fun i =>
      pi self i ^ 2
      * cross_covariance (n self i) (P self i) (pm self i) (as_row (tgt_w i))
          (pt_wm i) (b self i) k a).

(** [Sw0 = sum(pi[i]**2*covariance(w[i], wm[i], b[i]) for i in S)] *)
Definition pt_Sw0 : mat :=
  fun a c =>
    rsum (m self) (fun i =>
      pi self i ^ 2
      * covariance (n self i) (as_row (tgt_w i)) (pt_wm i) (b self i) a c).

(** [Ss0 = np.block([[self.Sp0, Sp0w0], [Sp0w0.T, Sw0]])] *)
Definition pt_Ss0 : mat :=
  block2x2 (m self) (m self) (Sp0 self) pt_Sp0w0 (transpose pt_Sp0w0) pt_Sw0.

(** [G = np.append(np.matmul(self.iB0, pu[:, np.newaxis]), iw0)] *)
Definition pt_G : vec :=
  fun a => if (a <? m self)%nat then matvec (m self) (iB0 self) tgt_pu_ref a
           else tgt_iw0.

(** [multi_dot([G.T, Ss0, G])] for the one-dimensional [G]. *)
Definition pt_var : R :=
  rsum (m self + 1) (fun c =>
    rsum (m self + 1) (fun a => pt_G a * pt_Ss0 a c) * pt_G c).

(** [return f, df] *)
Definition perturb : outcome (R * R) :=
  if (ref <? m self)%nat then Return (tgt_f, sqrt pt_var)
  else Raise (IndexError "index out of bounds"%string).

End Target.

(** ** The orchestrator's reports ([mixtures.py]) *)

(** [free_energies]: the columns ["f"] and ["df"] of the returned frame. *)
Definition free_energies (self : mixture) (reference : nat) : outcome (vec * vec) :=
  if (reference <? m self)%nat then
    let T := Theta self in
    Return (fun k => f self k - f self reference,
            fun k => sqrt (T k k - 2 * T k reference + T reference reference))
  else Raise (IndexError "index out of bounds"%string).

(** *** String formatting

    Python's [fmt % arg] for a [str] argument that is not a tuple, as far as
    [reweighting] needs it: the format is scanned left to right; a [%]
    opens a conversion made of flags, a width, a precision, a length
    modifier and the conversion character, which decides what is done with
    the one argument.  (Padding by a width and truncation by a precision
    are parsed, not applied: no format of this module has them.) *)

Local Open Scope string_scope.

Inductive fmt_state : Type :=
| Literal                 (* outside a conversion *)
| Spec (stage : nat).     (* inside: 0 flags, 1 width, 2 precision, 3 length *)

Definition one_of (cs : string) (c : ascii) : bool :=
  existsb (Ascii.eqb c) (list_ascii_of_string cs).

Definition is_flag : ascii -> bool := one_of "-+ #0".
Definition is_digit : ascii -> bool := one_of "0123456789".
Definition is_length : ascii -> bool := one_of "hlL".

(** What the conversion character [c] does with the [str] argument. *)
Definition convert_str (c : ascii) (arg : string) : exn + string :=
  if one_of "s" c then inr arg
  else if one_of "diu" c then
    inl (TypeError (String "%" (String c " format: a real number is required, not str")))
  else if one_of "oxX" c then
    inl (TypeError (String "%" (String c " format: an integer is required, not str")))
  else if one_of "eEfFgG" c then
    inl (TypeError "must be real number, not str")
  else if one_of "c" c then
    if (String.length arg =? 1)%nat then inr arg
    else inl (TypeError "%c requires an int or a unicode character")
  else if one_of "ra" c then inr (String "'" (arg ++ "'"))
  else inl (ValueError "unsupported format character").

(** The scan: [out] is what has been produced, [used] says whether the
    argument has been consumed. *)
Fixpoint format_scan (st : fmt_state) (used : bool) (out : string) (arg : string)
    (fmt : string) : exn + string :=
  match fmt with
  | EmptyString =>
      match st with
      | Spec _ => inl (ValueError "incomplete format")
      | Literal =>
          if used then inr out
          else inl (TypeError "not all arguments converted during string formatting")
      end
  | String c rest =>
      match st with
      | Literal =>
          if Ascii.eqb c "%" then format_scan (Spec 0) used out arg rest
          else format_scan Literal used (out ++ String c "") arg rest
      | Spec stage =>
          if (stage <=? 0)%nat && is_flag c then format_scan (Spec 0) used out arg rest
          else if (stage <=? 2)%nat && Ascii.eqb c "*" then inl (TypeError "* wants int")
          else if (stage <=? 1)%nat && is_digit c then format_scan (Spec 1) used out arg rest
          else if (stage <=? 1)%nat && Ascii.eqb c "." then format_scan (Spec 2) used out arg rest
          else if (stage =? 2)%nat && is_digit c then format_scan (Spec 2) used out arg rest
          else if (stage <=? 2)%nat && is_length c then format_scan (Spec 3) used out arg rest
          else if Ascii.eqb c "%" then format_scan Literal used (out ++ "%") arg rest
          else if used then inl (TypeError "not enough arguments for format string")
          else
            match convert_str c arg with
            | inl e => inl e
            | inr piece => format_scan Literal true (out ++ piece) arg rest
            end
      end
  end.

(** [fmt % arg] *)
Definition py_format (fmt arg : string) : exn + string :=
  format_scan Literal false "" arg fmt.

(** *** [reweighting] *)

Section Reweighting.

(** The returned data frame, and the statements of [reweighting] after the
    check of the property names (from [propnames = ...] on); they belong
    to the collaborators (expression compilation, data frames). *)
Variable frame : Type.
Variable reweighting_body : mixture -> string -> list (string * string) -> outcome frame.

(** [properties] is a dict, here its items in order; the check reads its
    keys only. *)
Definition reweighting (self : mixture) (potential : string)
    (properties : list (string * string)) : outcome frame :=
  let freeEnergy := "f"%string in
  if existsb (String.eqb freeEnergy) (map fst properties) then
    match py_format "Word % is reserved for free energies" freeEnergy with
    | inl e => Raise e
    | inr msg => Raise (InputError msg)
    end
  else reweighting_body self potential properties.

End Reweighting.
Local Close Scope string_scope.

(** ** Vocabulary of the statements *)

(** Every column of every [P[i]] is a probability vector over the states. *)
Definition columns_are_distributions (self : mixture) : Prop :=
  forall i t,
    rsum (m self) (fun k => P self i k t) = 1 /\ forall k, 0 <= P self i k t.

(** [max(abs(df)) <= tol] for an array of length [len]. *)
Definition within_tol (len : nat) (df : vec) (tol : R) : Prop :=
  forall j, (j < len)%nat -> Rabs (df j) <= tol.

Section Passes.

Variable pinv : nat -> mat -> mat.

(** One turn of the [while] body: the correction is added, the pass runs. *)
Definition loop_body (sd : mixture * vec) : mixture * vec :=
  newton_raphson_iteration pinv (add_correction (fst sd) (snd sd)).

(** The object and the pending correction after [k] turns of the body. *)
Fixpoint after_turns (k : nat) (sd : mixture * vec) : mixture * vec :=
  match k with
  | O => sd
  | S j => after_turns j (loop_body sd)
  end.

(** The object and the correction when the loop is entered: the
    assignments of [MICS.__init__] before it, and the first pass. *)
Definition loop_entry (self : mixture) : mixture * vec :=
  newton_raphson_iteration pinv
    (set_method self
       (fun i => Sample.b (sample_at (samples self) i))
       (fun i => neff self i / rsum (m self) (neff self))).

End Passes.

(** The condition of the [while]: [any(abs(df) > tol)]. *)
Definition loop_test (tol : R) (sd : mixture * vec) : bool :=
  any_above (m (fst sd) - 1) (snd sd) tol.

(** The attributes of [self] are those that a pass on its own [f] stores,
    and its covariances those that are assigned after the loop. *)
Definition solved (pinv : nat -> mat -> mat) (self : mixture) : Prop :=
  P self = nr_P self /\ u0 self = nr_u0 self /\ pm self = nr_pm self /\
  p0 self = nr_p0 self /\ iB0 self = nr_iB0 pinv self /\
  Sp0 self = final_Sp0 self /\ Theta self = final_Theta self (Sp0 self).

(** The bilinear form [v^T . S . w] of a square array of side [k], summed
    as [multi_dot] does for one-dimensional [v] and [w]. *)
Definition bil (k : nat) (S : mat) (v w : vec) : R :=
  rsum k (fun l => rsum k (fun a => v a * S a l) * w l).

(** The unit vector of state [i]. *)
Definition basis (i : nat) : vec := fun k => if (k =? i)%nat then 1 else 0.

(** The kernel of the square array [A] of side [k] is the line of the
    constant vectors: for [B0], whose rows sum to zero, this says that its
    rank is [m - 1] (spec 3). *)
Definition kernel_is_constants (k : nat) (A : mat) : Prop :=
  forall v, (forall a, (a < k)%nat -> matvec k A v a = 0) ->
            exists c, forall a, (a < k)%nat -> v a = c.

(** The target potential that is the potential of the sampled state [i]:
    row [i] of every [self.u[j]]. *)
Definition own_potential (self : mixture) (i : nat) : nat -> vec :=
  fun j t => u self j i t.

(** ** A worked example

    Two samples of four configurations each, drawn from two states with the
    same reduced potential (the energy in column ["E"]); the effective
    sample sizes are equal.  The states being identical, the overlap
    estimate of their free-energy difference is zero. *)

Definition ex_sample : sample :=
  {| Sample.columns := ["E"%string];
     Sample.dataset := [[0]; [1]; [2]; [3]];
     Sample.potential := fun row => nth 0 row 0;
     Sample.neff := 1;
     Sample.b := 1%nat |}.

Definition ex_samples : list sample := [ex_sample; ex_sample].

Definition ex_overlapSampling : nat -> (nat -> nat) -> (nat -> mat) -> vec :=
  fun _ _ _ => zeros1.

(** The pseudo-inverse of the arrays [c * [[1, -1], [-1, 1]]], which is
    [[[1, -1], [-1, 1]] / (4 c)]. *)
Definition ex_pinv : nat -> mat -> mat :=
  fun _ A i j => if Req_EM_T (A O O) 0 then 0 else A i j / (4 * A O O ^ 2).

(** The object that [define] builds from the two samples. *)
Definition ex_mixture : mixture :=
  {| samples := ex_samples; m := 2;
     n := fun i => List.length (Sample.dataset (sample_at ex_samples i));
     neff := fun i => Sample.neff (sample_at ex_samples i);
     names := ["E"%string];
     u := potential_matrix ex_samples;
     f := zeros1;
     b := fun _ => O; pi := zeros1;
     P := fun _ => zeros2; pm := fun _ => zeros1;
     u0 := fun _ => zeros1; p0 := zeros1; iB0 := zeros2;
     Sp0 := zeros2; Theta := zeros2; Overlap := zeros2 |}.

(** The object on which the first pass of the example runs. *)
Definition ex_start : mixture :=
  set_method ex_mixture
    (fun i => Sample.b (sample_at (samples ex_mixture) i))
    (fun i => neff ex_mixture i / rsum (m ex_mixture) (neff ex_mixture)).

(** The object the constructor returns for it (after the first pass). *)
Definition ex_final : mixture := finish (fst (loop_entry ex_pinv ex_mixture)).

(** * Properties *)

(** ** Finite sums *)

Lemma rsum_ext (k : nat) (a c : nat -> R) :
  (forall i, (i < k)%nat -> a i = c i) -> rsum k a = rsum k c.
Proof.
  induction k as [|k IH]; intros H; simpl; [reflexivity|].
  rewrite IH by (intros; apply H; lia). rewrite H by lia. reflexivity.
Qed.

Lemma rsum_zero (k : nat) (a : nat -> R) :
  (forall i, (i < k)%nat -> a i = 0) -> rsum k a = 0.
Proof.
  induction k as [|k IH]; intros H; simpl; [reflexivity|].
  rewrite IH by (intros; apply H; lia). rewrite H by lia. lra.
Qed.

Lemma rsum_plus (k : nat) (a c : nat -> R) :
  rsum k (fun i => a i + c i) = rsum k a + rsum k c.
Proof. induction k as [|k IH]; simpl; [lra|rewrite IH; lra]. Qed.

Lemma rsum_minus (k : nat) (a c : nat -> R) :
  rsum k (fun i => a i - c i) = rsum k a - rsum k c.
Proof. induction k as [|k IH]; simpl; [lra|rewrite IH; lra]. Qed.

Lemma rsum_scal_l (k : nat) (x : R) (a : nat -> R) :
  rsum k (fun i => x * a i) = x * rsum k a.
Proof. induction k as [|k IH]; simpl; [lra|rewrite IH; lra]. Qed.

Lemma rsum_scal_r (k : nat) (x : R) (a : nat -> R) :
  rsum k (fun i => a i * x) = rsum k a * x.
Proof. induction k as [|k IH]; simpl; [lra|rewrite IH; lra]. Qed.

Lemma rsum_div (k : nat) (x : R) (a : nat -> R) :
  rsum k (fun i => a i / x) = rsum k a / x.
Proof. unfold Rdiv. apply rsum_scal_r. Qed.

Lemma rsum_swap (k l : nat) (a : nat -> nat -> R) :
  rsum k (fun i => rsum l (fun j => a i j)) = rsum l (fun j => rsum k (fun i => a i j)).
Proof.
  induction k as [|k IH]; simpl.
  - symmetry. apply rsum_zero. reflexivity.
  - rewrite IH, <- rsum_plus. reflexivity.
Qed.

Lemma rsum_nonneg (k : nat) (a : nat -> R) :
  (forall i, (i < k)%nat -> 0 <= a i) -> 0 <= rsum k a.
Proof.
  induction k as [|k IH]; intros H; simpl; [lra|].
  assert (0 <= rsum k a) by (apply IH; intros; apply H; lia).
  assert (0 <= a k) by (apply H; lia). lra.
Qed.

Lemma rsum_pos (k : nat) (a : nat -> R) :
  (0 < k)%nat -> (forall i, (i < k)%nat -> 0 < a i) -> 0 < rsum k a.
Proof.
  intros Hk H. destruct k as [|k]; [lia|]. simpl.
  assert (0 <= rsum k a) by (apply rsum_nonneg; intros; left; apply H; lia).
  assert (0 < a k) by (apply H; lia). lra.
Qed.

Lemma rsum_le (k : nat) (a c : nat -> R) :
  (forall i, (i < k)%nat -> a i <= c i) -> rsum k a <= rsum k c.
Proof.
  induction k as [|k IH]; intros H; simpl; [lra|].
  assert (rsum k a <= rsum k c) by (apply IH; intros; apply H; lia).
  assert (a k <= c k) by (apply H; lia). lra.
Qed.

Lemma rsum_abs (k : nat) (a : nat -> R) :
  Rabs (rsum k a) <= rsum k (fun i => Rabs (a i)).
Proof.
  induction k as [|k IH]; simpl.
  - rewrite Rabs_R0. lra.
  - eapply Rle_trans; [apply Rabs_triang|]. lra.
Qed.

(** The sum picks the one term where [i = j]. *)
Lemma rsum_delta (k j : nat) (a : nat -> R) :
  (j < k)%nat -> rsum k (fun i => if (i =? j)%nat then a i else 0) = a j.
Proof.
  induction k as [|k IH]; intros H; [lia|]. simpl.
  destruct (Nat.eqb_spec k j) as [->|Hne].
  - rewrite rsum_zero; [lra|]. intros i Hi.
    destruct (Nat.eqb_spec i j); [lia|reflexivity].
  - rewrite IH by lia. lra.
Qed.

Lemma rsum_app (k l : nat) (a : nat -> R) :
  rsum (k + l) a = rsum k a + rsum l (fun j => a (k + j)%nat).
Proof.
  induction l as [|l IH]; simpl.
  - rewrite Nat.add_0_r. lra.
  - rewrite Nat.add_succ_r. simpl. rewrite IH. lra.
Qed.

Lemma rsum_const (k : nat) (x : R) : rsum k (fun _ => x) = INR k * x.
Proof.
  induction k as [|k IH]; [simpl; lra|].
  rewrite S_INR. simpl rsum. rewrite IH. lra.
Qed.

(** Non-negative terms that sum to zero are all zero. *)
Lemma rsum_nonneg_zero (k : nat) (a : nat -> R) :
  (forall i, (i < k)%nat -> 0 <= a i) -> rsum k a = 0 ->
  forall i, (i < k)%nat -> a i = 0.
Proof.
  induction k as [|k IH]; intros Hpos Hsum i Hi; [lia|]. simpl in Hsum.
  assert (0 <= rsum k a) by (apply rsum_nonneg; intros; apply Hpos; lia).
  assert (0 <= a k) by (apply Hpos; lia).
  destruct (Nat.eq_dec i k) as [->|Hne]; [lra|].
  apply IH; [intros; apply Hpos; lia|lra|lia].
Qed.

(** ** The loop test *)

Lemma Rgtb_true (x y : R) : Rgtb x y = true <-> x > y.
Proof. unfold Rgtb. destruct (Rgt_dec x y); split; intros; try easy. Qed.

Lemma Rgtb_false (x y : R) : Rgtb x y = false <-> x <= y.
Proof.
  unfold Rgtb. destruct (Rgt_dec x y); split; intros; try easy; lra.
Qed.

Lemma any_above_false (len : nat) (df : vec) (tol : R) :
  any_above len df tol = false <-> within_tol len df tol.
Proof.
  unfold within_tol. induction len as [|len IH]; simpl.
  - split; [intros _ j Hj; lia|reflexivity].
  - rewrite orb_false_iff, IH, Rgtb_false. split.
    + intros [H1 H2] j Hj. destruct (Nat.eq_dec j len) as [->|]; [exact H2|].
      apply H1. lia.
    + intros H. split; [intros j Hj|]; apply H; lia.
Qed.

Lemma any_above_true (len : nat) (df : vec) (tol : R) :
  any_above len df tol = true <-> exists j, (j < len)%nat /\ Rabs (df j) > tol.
Proof.
  induction len as [|len IH]; simpl.
  - split; [discriminate|intros (j & Hj & _); lia].
  - rewrite orb_true_iff, IH, Rgtb_true. split.
    + intros [(j & Hj & H)|H]; [exists j|exists len]; split; auto; lia.
    + intros (j & Hj & H). destruct (Nat.eq_dec j len) as [->|]; [right; exact H|].
      left. exists j. split; [lia|exact H].
Qed.

(** ** One pass *)

Section SolverProperties.

Variable pinv : nat -> mat -> mat.

Lemma pass_keeps_m (self : mixture) :
  m (fst (newton_raphson_iteration pinv self)) = m self.
Proof. reflexivity. Qed.

Lemma nr_denom_pos (self : mixture) (i t : nat) :
  (0 < m self)%nat -> 0 < nr_denom self i t.
Proof.
  intros Hm. unfold nr_denom. apply rsum_pos; [exact Hm|].
  intros k _. unfold nr_numer. apply exp_pos.
Qed.

Lemma nr_P_column (self : mixture) (i t : nat) :
  (0 < m self)%nat -> rsum (m self) (fun k => nr_P self i k t) = 1.
Proof.
  intros Hm. unfold nr_P. rewrite rsum_div.
  change (rsum (m self) (fun k => nr_numer self i k t)) with (nr_denom self i t).
  pose proof (nr_denom_pos self i t Hm). field. lra.
Qed.

Lemma nr_P_pos (self : mixture) (i k t : nat) :
  (0 < m self)%nat -> 0 < nr_P self i k t.
Proof.
  intros Hm. unfold nr_P. apply Rdiv_lt_0_compat.
  - apply exp_pos.
  - apply nr_denom_pos, Hm.
Qed.

Lemma pass_columns (self : mixture) :
  (0 < m self)%nat ->
  columns_are_distributions (fst (newton_raphson_iteration pinv self)).
Proof.
  intros Hm i t. simpl. split.
  - apply nr_P_column, Hm.
  - intros k. left. apply nr_P_pos, Hm.
Qed.

(** ** The loop *)

Lemma after_turns_m (k : nat) (sd : mixture * vec) :
  m (fst (after_turns pinv k sd)) = m (fst sd).
Proof.
  revert sd. induction k as [|k IH]; intros sd; simpl; [reflexivity|].
  rewrite IH. reflexivity.
Qed.

Lemma newton_loop_S (fuel : nat) (tol : R) (s : mixture) (d : vec) :
  newton_loop pinv (S fuel) tol s d =
  if loop_test tol (s, d)
  then newton_loop pinv fuel tol (fst (loop_body pinv (s, d))) (snd (loop_body pinv (s, d)))
  else Some s.
Proof. reflexivity. Qed.

Lemma after_turns_S (k : nat) (s : mixture) (d : vec) :
  after_turns pinv (S k) (s, d) =
  after_turns pinv k (fst (loop_body pinv (s, d)), snd (loop_body pinv (s, d))).
Proof. reflexivity. Qed.

(** The loop returns exactly when some turn leaves a correction that
    fails the test, and then it returns the object of the first such
    turn. *)
Lemma newton_loop_spec (fuel : nat) (tol : R) (s : mixture) (d : vec) (s' : mixture) :
  newton_loop pinv fuel tol s d = Some s' <->
  exists k, (k < fuel)%nat /\
    (forall j, (j < k)%nat -> loop_test tol (after_turns pinv j (s, d)) = true) /\
    loop_test tol (after_turns pinv k (s, d)) = false /\
    s' = fst (after_turns pinv k (s, d)).
Proof.
  revert s d. induction fuel as [|fuel IH]; intros s d.
  - simpl. split; [discriminate|intros (k & Hk & _); lia].
  - rewrite newton_loop_S. destruct (loop_test tol (s, d)) eqn:Ht.
    + rewrite IH. split.
      * intros (k & Hk & Hlt & Hstop & Hs'). exists (S k).
        rewrite after_turns_S. repeat split; [lia| |exact Hstop|exact Hs'].
        intros [|j] Hj; [exact Ht|]. rewrite after_turns_S. apply Hlt. lia.
      * intros (k & Hk & Hlt & Hstop & Hs'). destruct k as [|k].
        -- simpl in Hstop. congruence.
        -- exists k. rewrite after_turns_S in Hstop, Hs'.
           repeat split; [lia| |exact Hstop|exact Hs'].
           intros j Hj. specialize (Hlt (S j) ltac:(lia)).
           rewrite after_turns_S in Hlt. exact Hlt.
    + split.
      * intros [= <-]. exists O. repeat split; [lia| |exact Ht].
        intros j Hj. lia.
      * intros (k & Hk & Hlt & Hstop & Hs'). destruct k as [|k].
        -- simpl in Hs'. congruence.
        -- specialize (Hlt O ltac:(lia)). simpl in Hlt. congruence.
Qed.

Lemma after_turns_last (k : nat) (sd : mixture * vec) :
  after_turns pinv (S k) sd = loop_body pinv (after_turns pinv k sd).
Proof.
  revert sd. induction k as [|k IH]; intros sd; [reflexivity|].
  change (after_turns pinv (S (S k)) sd) with (after_turns pinv (S k) (loop_body pinv sd)).
  rewrite IH. reflexivity.
Qed.

Lemma loop_test_within (tol : R) (sd : mixture * vec) :
  loop_test tol sd = false <-> within_tol (m (fst sd) - 1) (snd sd) tol.
Proof. apply any_above_false. Qed.

Lemma loop_test_exceeds (tol : R) (sd : mixture * vec) :
  loop_test tol sd = true <->
  exists j, (j < m (fst sd) - 1)%nat /\ Rabs (snd sd j) > tol.
Proof. apply any_above_true. Qed.

Lemma loop_entry_m (self : mixture) : m (fst (loop_entry pinv self)) = m self.
Proof. reflexivity. Qed.

Lemma turns_m (k : nat) (self : mixture) :
  m (fst (after_turns pinv k (loop_entry pinv self))) = m self.
Proof. rewrite after_turns_m. reflexivity. Qed.

Lemma initialize_unfold (fuel : nat) (tol : R) (self : mixture) :
  initialize pinv fuel tol self =
  match newton_loop pinv fuel tol (fst (loop_entry pinv self)) (snd (loop_entry pinv self)) with
  | None => Running
  | Some s => Return (finish s)
  end.
Proof. reflexivity. Qed.

(** The constructor returns exactly the finished object of the first
    turn whose correction is within the tolerance. *)
Lemma initialize_spec (fuel : nat) (tol : R) (self s' : mixture) :
  initialize pinv fuel tol self = Return s' <->
  exists k, (k < fuel)%nat /\
    (forall j, (j < k)%nat ->
       loop_test tol (after_turns pinv j (loop_entry pinv self)) = true) /\
    loop_test tol (after_turns pinv k (loop_entry pinv self)) = false /\
    s' = finish (fst (after_turns pinv k (loop_entry pinv self))).
Proof.
  rewrite initialize_unfold.
  destruct (newton_loop pinv fuel tol _ _) as [s|] eqn:E.
  - apply newton_loop_spec in E. rewrite <- surjective_pairing in E.
    destruct E as (k & Hk & Hlt & Hstop & ->). split.
    + intros [= <-]. exists k. auto.
    + intros (k' & Hk' & Hlt' & Hstop' & ->).
      assert (k' = k) as ->; [|reflexivity].
      destruct (Nat.lt_total k' k) as [H|[H|H]]; [|exact H|].
      * rewrite (Hlt k' H) in Hstop'. discriminate.
      * rewrite (Hlt' k H) in Hstop. discriminate.
  - split; [discriminate|].
    intros (k & Hk & Hlt & Hstop & _).
    assert (newton_loop pinv fuel tol (fst (loop_entry pinv self))
              (snd (loop_entry pinv self))
            = Some (fst (after_turns pinv k (loop_entry pinv self)))) as H.
    { apply newton_loop_spec. rewrite <- surjective_pairing. exists k. auto. }
    congruence.
Qed.

Lemma turns_columns (k : nat) (sd : mixture * vec) :
  (0 < m (fst sd))%nat ->
  columns_are_distributions (fst (after_turns pinv (S k) sd)).
Proof.
  intros Hm. rewrite after_turns_last. apply pass_columns.
  simpl. rewrite after_turns_m. exact Hm.
Qed.

(** ** Claims about the solver *)

(** C9.  After every Newton-Raphson pass, and so in every object the
    loop holds and in the object the constructor returns, every column of
    every posterior matrix [P[i]] sums to one and has no negative entry:
    it is a softmax over the [m] states (there is at least one state). *)
Theorem posterior_columns_are_distributions (self : mixture) :
  (0 < m self)%nat ->
  columns_are_distributions (fst (newton_raphson_iteration pinv self)) /\
  (forall k,
     columns_are_distributions (fst (after_turns pinv k (loop_entry pinv self)))) /\
  (forall fuel tol s',
     initialize pinv fuel tol self = Return s' -> columns_are_distributions s').
Proof.
  intros Hm.
  assert (forall k,
    columns_are_distributions (fst (after_turns pinv k (loop_entry pinv self)))) as Hk.
  { intros [|k].
    - simpl after_turns. unfold loop_entry. apply pass_columns. exact Hm.
    - apply turns_columns. exact Hm. }
  split; [apply pass_columns, Hm|]. split; [exact Hk|].
  intros fuel tol s' H. apply initialize_spec in H.
  destruct H as (k & _ & _ & _ & ->). exact (Hk k).
Qed.

(** C4.  In every pass the full step is [iB0 . (pi - p0)], with the [iB0]
    and [p0] that the pass stores; the returned correction is
    [df_full[1:] - df_full[0]]; adding it changes the entries [1..m-1] of
    [f] by exactly that amount and leaves entry [0] alone, in one turn and
    over any number of turns of the loop. *)
Theorem newton_step_pins_state_zero (self : mixture) :
  let self' := fst (newton_raphson_iteration pinv self) in
  let df := snd (newton_raphson_iteration pinv self) in
  let df_full := matvec (m self) (iB0 self') (fun l => pi self' l - p0 self' l) in
  iB0 self' = pinv (m self) (nr_B0 self) /\
  (forall k, nr_df_full pinv self k = df_full k) /\
  (forall k, df k = df_full (S k) - df_full O) /\
  f (add_correction self' df) O = f self O /\
  (forall k, (S k < m self)%nat ->
     f (add_correction self' df) (S k) = f self (S k) + (df_full (S k) - df_full O)) /\
  (forall k, (m self <= k)%nat -> f (add_correction self' df) k = f self k) /\
  (forall k d, f (fst (after_turns pinv k (self, d))) O = f self O).
Proof.
  cbv zeta. repeat split.
  - intros k Hk. simpl.
    destruct (Nat.ltb_spec (S k) (m self)); [reflexivity|lia].
  - intros k Hk. simpl. destruct k as [|k]; [reflexivity|].
    destruct (Nat.ltb_spec (S k) (m self)); [lia|reflexivity].
  - intros k. revert self. induction k as [|k IH]; intros s d; [reflexivity|].
    change (after_turns pinv (S k) (s, d))
      with (after_turns pinv k (fst (loop_body pinv (s, d)), snd (loop_body pinv (s, d)))).
    rewrite IH. reflexivity.
Qed.

(** C3.  The loop runs until the first pass whose correction satisfies
    [max(abs(df)) <= tol], however many turns that takes: the constructor
    returns with fuel [fuel] exactly when such a pass comes within [fuel]
    turns, and then returns the object of that pass.  So when the
    correction of every pass has an entry above [tol], no amount of fuel
    makes the constructor return.  The default tolerance is [1e-12]. *)
Theorem loop_has_no_iteration_cap (tol : R) (self : mixture) :
  (forall fuel s',
     initialize pinv fuel tol self = Return s' <->
     exists k, (k < fuel)%nat /\
       (forall j, (j < k)%nat ->
          ~ within_tol (m self - 1) (snd (after_turns pinv j (loop_entry pinv self))) tol) /\
       within_tol (m self - 1) (snd (after_turns pinv k (loop_entry pinv self))) tol /\
       s' = finish (fst (after_turns pinv k (loop_entry pinv self)))) /\
  ((forall k, exists j, (j < m self - 1)%nat /\
       Rabs (snd (after_turns pinv k (loop_entry pinv self)) j) > tol) ->
   forall fuel, initialize pinv fuel tol self = Running) /\
  default_tol = 1 / 10 ^ 12.
Proof.
  assert (forall k, loop_test tol (after_turns pinv k (loop_entry pinv self)) = true <->
            ~ within_tol (m self - 1) (snd (after_turns pinv k (loop_entry pinv self))) tol)
    as Htrue.
  { intros k. rewrite <- (turns_m k self), <- loop_test_within.
    destruct (loop_test tol _); split; congruence. }
  split; [|split; [|reflexivity]].
  - intros fuel s'. rewrite initialize_spec. split.
    + intros (k & Hk & Hlt & Hstop & Hs'). exists k. repeat split; auto.
      * intros j Hj. apply Htrue, Hlt, Hj.
      * rewrite <- (turns_m k self). apply loop_test_within, Hstop.
    + intros (k & Hk & Hlt & Hstop & Hs'). exists k. repeat split; auto.
      * intros j Hj. apply Htrue, Hlt, Hj.
      * apply loop_test_within. rewrite turns_m. exact Hstop.
  - intros Hnever fuel.
    destruct (initialize pinv fuel tol self) as [s'| e |] eqn:E; [| |reflexivity].
    + apply initialize_spec in E. destruct E as (k & _ & _ & Hstop & _).
      apply loop_test_within in Hstop. rewrite turns_m in Hstop.
      destruct (Hnever k) as (j & Hj & Habove). specialize (Hstop j Hj). lra.
    + rewrite initialize_unfold in E.
      destruct (newton_loop pinv fuel tol _ _); discriminate.
Qed.

End SolverProperties.

(** ** Construction *)

Section ConstructionProperties.

Variable pinv : nat -> mat -> mat.
Variable overlapSampling : nat -> (nat -> nat) -> (nat -> mat) -> vec.

Lemma columns_differ_true (names : list string) (s : sample) :
  columns_differ names s = true <-> Sample.columns s <> names.
Proof.
  unfold columns_differ.
  destruct (list_eq_dec string_dec (Sample.columns s) names); split; intros; easy.
Qed.

Lemma mixture_init_unfold (fuel : nat) (tol : R) (samples : list sample) :
  mixture_init pinv overlapSampling fuel tol samples =
  match define overlapSampling samples with
  | Return self => initialize pinv fuel tol self
  | Raise e => Raise e
  | Running => Running
  end.
Proof. reflexivity. Qed.

(** What [define] answers, case by case. *)
Lemma define_spec (samples : list sample) :
  (samples = [] /\
   define overlapSampling samples = Raise (InputError "list of samples is empty")) \/
  (samples <> [] /\
   (exists s, In s samples /\ Sample.columns s <> Sample.columns (sample_at samples 0)) /\
   define overlapSampling samples
   = Raise (InputError "provided samples have distinct properties")) \/
  (samples <> [] /\
   (forall s, In s samples -> Sample.columns s = Sample.columns (sample_at samples 0)) /\
   exists self,
     define overlapSampling samples = Return self /\
     m self = List.length samples /\
     f self = overlapSampling (m self) (n self) (u self)).
Proof.
  unfold define. destruct samples as [|s0 rest].
  - left. split; reflexivity.
  - right. remember (s0 :: rest) as samples eqn:E.
    assert (samples <> []) as Hne by (subst; discriminate).
    assert ((List.length samples =? 0)%nat = false) as ->.
    { subst. reflexivity. }
    destruct (existsb _ samples) eqn:Hex.
    + left. split; [exact Hne|]. split; [|reflexivity].
      apply existsb_exists in Hex. destruct Hex as (s & Hin & Hs).
      exists s. split; [exact Hin|]. apply columns_differ_true, Hs.
    + right. split; [exact Hne|]. split.
      * intros s Hin.
        destruct (list_eq_dec string_dec (Sample.columns s)
                    (Sample.columns (sample_at samples 0))) as [H|H]; [exact H|].
        assert (existsb (columns_differ (Sample.columns (sample_at samples 0))) samples
                = true) as Hc.
        { apply existsb_exists. exists s. split; [exact Hin|].
          apply columns_differ_true, H. }
        congruence.
      * eexists. split; [reflexivity|]. split; reflexivity.
Qed.

(** C7.  Construction raises the configuration error, with its message,
    when the list of samples is empty and when some sample's columns
    differ from those of the first; it does so for every amount of fuel,
    zero included, so before any pass of the solver.  Otherwise
    construction goes on to the solver with the object it has set up. *)
Theorem construction_validates_samples (fuel : nat) (tol : R) (given : list sample) :
  (given = [] ->
   mixture_init pinv overlapSampling fuel tol given
   = Raise (InputError "list of samples is empty")) /\
  (given <> [] ->
   (exists s, In s given /\ Sample.columns s <> Sample.columns (sample_at given 0)) ->
   mixture_init pinv overlapSampling fuel tol given
   = Raise (InputError "provided samples have distinct properties")) /\
  (given <> [] ->
   (forall s, In s given -> Sample.columns s = Sample.columns (sample_at given 0)) ->
   exists self,
     define overlapSampling given = Return self /\
     m self = List.length given /\
     samples self = given /\
     mixture_init pinv overlapSampling fuel tol given = initialize pinv fuel tol self).
Proof.
  rewrite mixture_init_unfold.
  destruct (define_spec given)
    as [[He H]|[(Hne & (s & Hin & Hs) & H)|(Hne & Hall & self & H & Hm & Hf)]].
  - rewrite H. repeat split; try congruence.
  - rewrite H. repeat split; try congruence.
    intros _ Hall'. elim Hs. apply Hall', Hin.
  - rewrite H. repeat split.
    + intros He. congruence.
    + intros _ (s & Hin & Hs). elim Hs. apply Hall, Hin.
    + intros _ _. exists self. repeat split; auto.
      unfold define in H. destruct (List.length given =? 0)%nat; [discriminate|].
      destruct (existsb _ given); [discriminate|].
      injection H as <-. reflexivity.
Qed.

(** C10.  When the constructor returns, the pass that met the tolerance
    was run on the returned [f] and its correction was not added: the
    returned [f] is the initial guess if no turn of the loop ran, and
    else the value that the last turn wrote by adding the previous
    correction (one that exceeded the tolerance).  In particular, when
    the correction of the first pass is within the tolerance, the
    returned [f] is the overlap-sampling guess itself. *)
Theorem converged_f_omits_last_correction (fuel : nat) (tol : R)
    (given : list sample) (s' : mixture) :
  mixture_init pinv overlapSampling fuel tol given = Return s' ->
  exists self k,
    define overlapSampling given = Return self /\
    f self = overlapSampling (m self) (n self) (u self) /\
    (k < fuel)%nat /\
    let sd := after_turns pinv k (loop_entry pinv self) in
    within_tol (m self - 1) (snd sd) tol /\
    snd sd = snd (newton_raphson_iteration pinv (fst sd)) /\
    f s' = f (fst sd) /\
    match k with
    | O => f s' = f self
    | S j =>
        let prev := after_turns pinv j (loop_entry pinv self) in
        ~ within_tol (m self - 1) (snd prev) tol /\
        f s' = f (add_correction (fst prev) (snd prev))
    end /\
    (within_tol (m self - 1) (snd (loop_entry pinv self)) tol -> f s' = f self).
Proof.
  rewrite mixture_init_unfold. intros H.
  destruct (define_spec given)
    as [[He Hd]|[(Hne & _ & Hd)|(Hne & Hall & self & Hd & Hm & Hf)]];
    rewrite Hd in H; try discriminate.
  apply initialize_spec in H. destruct H as (k & Hk & Hlt & Hstop & ->).
  exists self, k. cbv zeta.
  split; [exact Hd|]. split; [exact Hf|]. split; [exact Hk|].
  split; [rewrite <- (turns_m pinv k self); apply loop_test_within, Hstop|].
  split.
  { destruct k as [|k]; [reflexivity|]. rewrite after_turns_last. reflexivity. }
  split; [reflexivity|]. split.
  - destruct k as [|k]; [reflexivity|]. split.
    + rewrite <- (turns_m pinv k self), <- loop_test_within.
      rewrite (Hlt k) by lia. discriminate.
    + rewrite after_turns_last. reflexivity.
  - intros Hfirst. destruct k as [|k]; [reflexivity|].
    specialize (Hlt O ltac:(lia)). simpl after_turns in Hlt.
    apply (proj2 (loop_test_within tol (loop_entry pinv self))) in Hfirst. congruence.
Qed.

End ConstructionProperties.

(** ** Reports *)

(** C2.  For a reference that is a state, [free_energies] returns the
    free energies [f - f[r]] and the standard errors
    [sqrt(diag(Theta) - 2 Theta[:, r] + Theta[r, r])]; the entries for the
    reference itself are exactly zero. *)
Theorem free_energies_relative_to_reference (self : mixture) (r : nat) :
  (r < m self)%nat ->
  exists fs dfs,
    free_energies self r = Return (fs, dfs) /\
    (forall k, fs k = f self k - f self r) /\
    (forall k, dfs k = sqrt (Theta self k k - 2 * Theta self k r + Theta self r r)) /\
    fs r = 0 /\ dfs r = 0.
Proof.
  intros Hr. unfold free_energies.
  destruct (Nat.ltb_spec r (m self)) as [_|H]; [|lia].
  eexists. eexists. split; [reflexivity|]. cbv zeta.
  split; [reflexivity|]. split; [reflexivity|]. split; [lra|].
  replace (Theta self r r - 2 * Theta self r r + Theta self r r) with 0 by lra.
  apply sqrt_0.
Qed.

(** C8, as the code has it.  When ["f"] is among the property names the
    call does fail, but the message is built with ["Word % is reserved for
    free energies" % "f"], where [% i] is an integer conversion with the
    space flag: the formatting raises [TypeError] and the configuration
    error is never made. *)
Theorem reserved_name_check_raises_type_error (frame : Type)
    (body : mixture -> string -> list (string * string) -> outcome frame)
    (self : mixture) (potential : string) (properties : list (string * string)) :
  In "f"%string (map fst properties) ->
  reweighting frame body self potential properties
  = Raise (TypeError "%i format: a real number is required, not str") /\
  forall msg, reweighting frame body self potential properties <> Raise (InputError msg).
Proof.
  intros Hin. unfold reweighting.
  assert (existsb (String.eqb "f") (map fst properties) = true) as ->.
  { apply existsb_exists. exists "f"%string. split; [exact Hin|reflexivity]. }
  split; [reflexivity|]. intros msg. discriminate.
Qed.

(** ** Perturbation against reweighting *)

Lemma rsum_three (k l : nat) (a : nat -> R) :
  rsum (k + l + 1) a
  = rsum k a + rsum l (fun j => a (k + j)%nat) + a (k + l)%nat.
Proof.
  rewrite rsum_app, rsum_app. simpl. rewrite Nat.add_0_r. lra.
Qed.

Section PerturbVsReweight.

Variable self : mixture.
Variable u_t : nat -> vec.
Variable ref : nat.
Variable ny : nat.
Variable y : nat -> mat.

Let M := m self.

(** The last row of [r[i]] is [w[i]], and so are their block deviations. *)
Lemma block_dev_last_row (i bsz q : nat) :
  block_dev bsz (rw_r self u_t ny y i) (rw_rm self u_t ny y i) ny q
  = block_dev bsz (as_row (tgt_w self u_t i)) (pt_wm self u_t i) O q.
Proof.
  unfold block_dev, rw_rm, pt_wm, rw_r, as_row, mean.
  rewrite Nat.ltb_irrefl. reflexivity.
Qed.

Lemma Sp0r0_last_column (k : nat) :
  rw_Sp0r0 self u_t ny y k ny = pt_Sp0w0 self u_t k O.
Proof.
  unfold rw_Sp0r0, pt_Sp0w0, cross_covariance. apply rsum_ext. intros i _.
  f_equal. f_equal. apply rsum_ext. intros q _.
  rewrite block_dev_last_row. reflexivity.
Qed.

Lemma Sr0_last_entry : rw_Sr0 self u_t ny y ny ny = pt_Sw0 self u_t O O.
Proof.
  unfold rw_Sr0, pt_Sw0, covariance, cross_covariance. apply rsum_ext. intros i _.
  f_equal. f_equal. apply rsum_ext. intros q _.
  rewrite block_dev_last_row. reflexivity.
Qed.

(** The first column of [G]. *)
Lemma rw_G_head (a : nat) :
  (a < M)%nat -> rw_G self u_t ref ny y a O = pt_G self u_t ref a.
Proof.
  intros Ha. unfold rw_G, pt_G. fold M.
  destruct (Nat.ltb_spec a M); [|lia]. reflexivity.
Qed.

Lemma rw_G_middle (j : nat) :
  (j < ny)%nat -> rw_G self u_t ref ny y (M + j)%nat O = 0.
Proof.
  intros Hj. unfold rw_G. fold M.
  destruct (Nat.ltb_spec (M + j)%nat M); [lia|].
  destruct (Nat.ltb_spec (M + j)%nat (M + ny)%nat); [|lia]. reflexivity.
Qed.

Lemma rw_G_last : rw_G self u_t ref ny y (M + ny)%nat O = pt_G self u_t ref M.
Proof.
  unfold rw_G, pt_G. fold M.
  destruct (Nat.ltb_spec (M + ny)%nat M); [lia|].
  destruct (Nat.ltb_spec (M + ny)%nat (M + ny)%nat); [lia|].
  rewrite Nat.ltb_irrefl. reflexivity.
Qed.

(** The entries of [Ss0] that meet a non-zero entry of that column. *)
Lemma rw_Ss0_hh (a c : nat) :
  (a < M)%nat -> (c < M)%nat ->
  rw_Ss0 self u_t ny y a c = pt_Ss0 self u_t a c.
Proof.
  intros Ha Hc. unfold rw_Ss0, pt_Ss0, block2x2. fold M.
  destruct (Nat.ltb_spec a M); [|lia]. destruct (Nat.ltb_spec c M); [|lia].
  reflexivity.
Qed.

Lemma rw_Ss0_hl (a : nat) :
  (a < M)%nat -> rw_Ss0 self u_t ny y a (M + ny)%nat = pt_Ss0 self u_t a M.
Proof.
  intros Ha. unfold rw_Ss0, pt_Ss0, block2x2. fold M.
  destruct (Nat.ltb_spec a M); [|lia].
  destruct (Nat.ltb_spec (M + ny)%nat M); [lia|]. rewrite Nat.ltb_irrefl.
  replace (M + ny - M)%nat with ny by lia. rewrite Nat.sub_diag.
  apply Sp0r0_last_column.
Qed.

Lemma rw_Ss0_lh (c : nat) :
  (c < M)%nat -> rw_Ss0 self u_t ny y (M + ny)%nat c = pt_Ss0 self u_t M c.
Proof.
  intros Hc. unfold rw_Ss0, pt_Ss0, block2x2, transpose. fold M.
  destruct (Nat.ltb_spec c M); [|lia].
  destruct (Nat.ltb_spec (M + ny)%nat M); [lia|]. rewrite Nat.ltb_irrefl.
  replace (M + ny - M)%nat with ny by lia. rewrite Nat.sub_diag.
  apply Sp0r0_last_column.
Qed.

Lemma rw_Ss0_ll : rw_Ss0 self u_t ny y (M + ny)%nat (M + ny)%nat = pt_Ss0 self u_t M M.
Proof.
  unfold rw_Ss0, pt_Ss0, block2x2. fold M.
  destruct (Nat.ltb_spec (M + ny)%nat M); [lia|]. rewrite Nat.ltb_irrefl.
  replace (M + ny - M)%nat with ny by lia. rewrite Nat.sub_diag.
  apply Sr0_last_entry.
Qed.

(** [G.T . Ss0], row of the free energy, at the columns above. *)
Lemma rw_GtS_head (c : nat) :
  (c < M)%nat ->
  rsum (M + ny + 1)%nat (fun a => rw_G self u_t ref ny y a O * rw_Ss0 self u_t ny y a c)
  = rsum (M + 1)%nat (fun a => pt_G self u_t ref a * pt_Ss0 self u_t a c).
Proof.
  intros Hc. rewrite rsum_three. rewrite (rsum_zero ny).
  2:{ intros j Hj. rewrite rw_G_middle by exact Hj. lra. }
  rewrite rsum_app. simpl. rewrite Nat.add_0_r.
  rewrite rw_G_last, rw_Ss0_lh by exact Hc.
  rewrite (rsum_ext M _ (fun a => pt_G self u_t ref a * pt_Ss0 self u_t a c)).
  2:{ intros a Ha. rewrite rw_G_head, rw_Ss0_hh by assumption. reflexivity. }
  lra.
Qed.

Lemma rw_GtS_last :
  rsum (M + ny + 1)%nat
    (fun a => rw_G self u_t ref ny y a O * rw_Ss0 self u_t ny y a (M + ny)%nat)
  = rsum (M + 1)%nat (fun a => pt_G self u_t ref a * pt_Ss0 self u_t a M).
Proof.
  rewrite rsum_three. rewrite (rsum_zero ny).
  2:{ intros j Hj. rewrite rw_G_middle by exact Hj. lra. }
  rewrite rsum_app. simpl. rewrite Nat.add_0_r.
  rewrite rw_G_last, rw_Ss0_ll.
  rewrite (rsum_ext M _ (fun a => pt_G self u_t ref a * pt_Ss0 self u_t a M)).
  2:{ intros a Ha. rewrite rw_G_head, rw_Ss0_hl by assumption. reflexivity. }
  lra.
Qed.

(** The variance of the free energy is the same in both engines. *)
Lemma rw_Theta_00 : rw_Theta self u_t ref ny y O O = pt_var self u_t ref.
Proof.
  unfold rw_Theta, multi_dot3, pt_var. fold M.
  unfold matmul at 1. rewrite rsum_three. rewrite (rsum_zero ny).
  2:{ intros j Hj. rewrite rw_G_middle by exact Hj. lra. }
  rewrite rsum_app. simpl rsum at 4. rewrite Nat.add_0_r.
  unfold matmul, transpose. rewrite rw_GtS_last, rw_G_last.
  rewrite (rsum_ext M _
    (fun c => rsum (M + 1)%nat (fun a => pt_G self u_t ref a * pt_Ss0 self u_t a c)
              * pt_G self u_t ref c)).
  2:{ intros c Hc. rewrite rw_GtS_head, rw_G_head by exact Hc. reflexivity. }
  lra.
Qed.

End PerturbVsReweight.

(** C6.  On the same target potential and reference, whatever the
    properties given to the reweighting engine: both engines raise alike
    for a reference that is not a state, and else the perturbation's value
    is the first entry of the reweighted vector and its standard error is
    the square root of the first diagonal entry of the reweighted
    covariance. *)
Theorem perturbation_agrees_with_reweighting (self : mixture) (u_t : nat -> vec)
    (ref ny : nat) (y : nat -> mat) :
  match perturb self u_t ref, reweight self u_t ref ny y with
  | Return (fp, dfp), Return (yu, Theta_u) => fp = yu O /\ dfp = sqrt (Theta_u O O)
  | Raise e1, Raise e2 => e1 = e2
  | _, _ => False
  end.
Proof.
  unfold perturb, reweight. destruct (ref <? m self)%nat; [|reflexivity].
  split; [reflexivity|]. rewrite rw_Theta_00. reflexivity.
Qed.

(** ** Square arrays, up to their entries in range *)

Section SquareArrays.

Variable k : nat.

#[local] Notation "A == B" := (on_square k A B) (at level 70, no associativity).
#[local] Notation "A ** B" := (matmul k A B) (at level 40, left associativity).

#[global] Instance on_square_equivalence : Equivalence (on_square k).
Proof.
  split.
  - intros A i j _ _. reflexivity.
  - intros A B H i j Hi Hj. symmetry. apply H; assumption.
  - intros A B C H1 H2 i j Hi Hj. rewrite H1, H2 by assumption. reflexivity.
Qed.

#[global] Instance matmul_proper :
  Proper (on_square k ==> on_square k ==> on_square k) (matmul k).
Proof.
  intros A A' HA B B' HB i j Hi Hj. unfold matmul. apply rsum_ext.
  intros l Hl. rewrite HA, HB by assumption. reflexivity.
Qed.

#[global] Instance transpose_proper : Proper (on_square k ==> on_square k) transpose.
Proof. intros A A' HA i j Hi Hj. unfold transpose. apply HA; assumption. Qed.

Lemma matmul_assoc (A B C : mat) : (A ** B) ** C == A ** (B ** C).
Proof.
  intros i j _ _. unfold matmul.
  rewrite (rsum_ext k _ (fun l => rsum k (fun p => A i p * B p l * C l j)))
    by (intros; rewrite <- rsum_scal_r; reflexivity).
  rewrite rsum_swap. apply rsum_ext. intros p _.
  rewrite <- rsum_scal_l. apply rsum_ext. intros l _. ring.
Qed.

Lemma transpose_matmul (A B : mat) :
  transpose (A ** B) == transpose B ** transpose A.
Proof.
  intros i j _ _. unfold transpose, matmul. apply rsum_ext. intros l _. ring.
Qed.

Lemma transpose_transpose (A : mat) : transpose (transpose A) == A.
Proof. intros i j _ _. reflexivity. Qed.

(** *** The Moore-Penrose equations determine the pseudo-inverse *)

Lemma penrose_left_product (A X Y : mat) :
  penrose k A X -> penrose k A Y -> A ** X == A ** Y.
Proof.
  intros (X1 & X2 & X3 & X4) (Y1 & Y2 & Y3 & Y4).
  transitivity ((A ** Y) ** (A ** X)).
  { rewrite <- matmul_assoc. rewrite Y1. reflexivity. }
  transitivity (transpose (A ** Y) ** transpose (A ** X)).
  { rewrite X3, Y3. reflexivity. }
  rewrite <- transpose_matmul.
  transitivity (transpose (A ** Y)); [|exact Y3].
  apply transpose_proper. rewrite <- matmul_assoc. rewrite X1. reflexivity.
Qed.

Lemma penrose_right_product (A X Y : mat) :
  penrose k A X -> penrose k A Y -> X ** A == Y ** A.
Proof.
  intros (X1 & X2 & X3 & X4) (Y1 & Y2 & Y3 & Y4).
  transitivity ((X ** A) ** (Y ** A)).
  { rewrite matmul_assoc. rewrite <- (matmul_assoc A Y A). rewrite Y1. reflexivity. }
  transitivity (transpose (X ** A) ** transpose (Y ** A)).
  { rewrite X4, Y4. reflexivity. }
  rewrite <- transpose_matmul.
  transitivity (transpose (Y ** A)); [|exact Y4].
  apply transpose_proper.
  rewrite matmul_assoc. rewrite <- (matmul_assoc A X A). rewrite X1. reflexivity.
Qed.

Lemma penrose_unique (A X Y : mat) :
  penrose k A X -> penrose k A Y -> X == Y.
Proof.
  intros HX HY.
  pose proof (penrose_left_product A X Y HX HY) as HL.
  pose proof (penrose_right_product A X Y HX HY) as HR.
  destruct HX as (X1 & X2 & X3 & X4). destruct HY as (Y1 & Y2 & Y3 & Y4).
  rewrite <- X2. rewrite matmul_assoc. rewrite HL. rewrite <- matmul_assoc.
  rewrite HR. exact Y2.
Qed.

Lemma penrose_transpose (A X : mat) :
  penrose k A X -> penrose k (transpose A) (transpose X).
Proof.
  intros (X1 & X2 & X3 & X4). repeat split.
  - rewrite <- !transpose_matmul. apply transpose_proper.
    rewrite <- matmul_assoc. exact X1.
  - rewrite <- !transpose_matmul. apply transpose_proper.
    rewrite <- matmul_assoc. exact X2.
  - rewrite <- transpose_matmul. apply transpose_proper. exact X4.
  - rewrite <- transpose_matmul. apply transpose_proper. exact X3.
Qed.

Lemma penrose_proper (A A' X : mat) : A == A' -> penrose k A X -> penrose k A' X.
Proof.
  intros HA (X1 & X2 & X3 & X4). repeat split; rewrite <- HA; assumption.
Qed.

(** The pseudo-inverse of a symmetric array is symmetric. *)
Lemma penrose_symmetric (A X : mat) :
  transpose A == A -> penrose k A X -> transpose X == X.
Proof.
  intros HA HX. apply (penrose_unique A); [|exact HX].
  apply (penrose_proper (transpose A)); [exact HA|].
  apply penrose_transpose, HX.
Qed.

Lemma penrose_proper_r (A X X' : mat) : X == X' -> penrose k A X -> penrose k A X'.
Proof.
  intros HX (X1 & X2 & X3 & X4). repeat split; rewrite <- HX; assumption.
Qed.

End SquareArrays.

(** ** The returned object *)

Section Converged.

Variable pinv : nat -> mat -> mat.

Lemma after_turns_static (k : nat) (sd : mixture * vec) :
  let s := fst (after_turns pinv k sd) in
  m s = m (fst sd) /\ n s = n (fst sd) /\ u s = u (fst sd) /\
  pi s = pi (fst sd) /\ b s = b (fst sd).
Proof.
  revert sd. induction k as [|k IH]; intros sd; cbv zeta.
  - repeat split.
  - change (after_turns pinv (S k) sd) with (after_turns pinv k (loop_body pinv sd)).
    destruct (IH (loop_body pinv sd)) as (H1 & H2 & H3 & H4 & H5).
    rewrite H1, H2, H3, H4, H5. repeat split.
Qed.

(** Every object the loop holds satisfies the equations of a pass on its
    own [f]; its pending correction is the one that pass returns. *)
Lemma after_turns_pass (k : nat) (self : mixture) :
  let sd := after_turns pinv k (loop_entry pinv self) in
  P (fst sd) = nr_P (fst sd) /\ u0 (fst sd) = nr_u0 (fst sd) /\
  pm (fst sd) = nr_pm (fst sd) /\ p0 (fst sd) = nr_p0 (fst sd) /\
  iB0 (fst sd) = nr_iB0 pinv (fst sd) /\
  snd sd = snd (newton_raphson_iteration pinv (fst sd)).
Proof.
  cbv zeta. destruct k as [|k].
  - repeat split.
  - rewrite after_turns_last. repeat split.
Qed.

(** What the constructor returns. *)
Lemma initialize_solved (fuel : nat) (tol : R) (self s' : mixture) :
  initialize pinv fuel tol self = Return s' ->
  solved pinv s' /\
  m s' = m self /\ n s' = n self /\ u s' = u self /\
  pi s' = (fun i => neff self i / rsum (m self) (neff self)) /\
  within_tol (m self - 1) (snd (newton_raphson_iteration pinv s')) tol.
Proof.
  intros H. apply initialize_spec in H. destruct H as (k & _ & _ & Hstop & ->).
  destruct (after_turns_pass k self) as (HP & Hu0 & Hpm & Hp0 & HiB0 & Hdf).
  destruct (after_turns_static k (loop_entry pinv self)) as (Hm & Hn & Hu & Hpi & Hb).
  apply loop_test_within in Hstop. rewrite Hm in Hstop.
  set (s := fst (after_turns pinv k (loop_entry pinv self))) in *.
  split; [|repeat split; try assumption].
  - unfold solved. repeat split; assumption.
  - rewrite Hdf in Hstop. exact Hstop.
Qed.

(** [B0] is symmetric. *)
Lemma nr_B0_symmetric (self : mixture) (k l : nat) :
  nr_B0 self k l = nr_B0 self l k.
Proof.
  unfold nr_B0. f_equal.
  - unfold diag. rewrite (Nat.eqb_sym l k).
    destruct (Nat.eqb_spec k l) as [->|]; reflexivity.
  - apply rsum_ext. intros i _. f_equal. f_equal.
    unfold matmul, transpose. apply rsum_ext. intros t _. ring.
Qed.

(** C5.  The object the constructor returns has
    [Sp0 = sum_i pi_i^2 covariance(P_i, pm_i, b_i)] and, as the code writes
    it, [Theta = iB0 . Sp0 . iB0]; [iB0] is [pinv] of the [B0] of the last
    pass, which is symmetric, so when [pinv] returns its Moore-Penrose
    pseudo-inverse [iB0] is symmetric too and [Theta] is
    [iB0 . Sp0 . iB0^T]. *)
Theorem theta_is_propagated_covariance (fuel : nat) (tol : R) (self s' : mixture) :
  initialize pinv fuel tol self = Return s' ->
  penrose (m s') (nr_B0 s') (pinv (m s') (nr_B0 s')) ->
  (forall k l,
     Sp0 s' k l
     = rsum (m s') (fun i =>
         pi s' i ^ 2 * covariance (n s' i) (P s' i) (pm s' i) (b s' i) k l)) /\
  iB0 s' = pinv (m s') (nr_B0 s') /\
  Theta s' = multi_dot3 (m s') (iB0 s') (Sp0 s') (iB0 s') /\
  on_square (m s') (Theta s')
    (multi_dot3 (m s') (iB0 s') (Sp0 s') (transpose (iB0 s'))).
Proof.
  intros H Hpen. apply initialize_solved in H.
  destruct H as ((HP & Hu0 & Hpm & Hp0 & HiB0 & HSp0 & HTheta) & _).
  split; [intros k l; rewrite HSp0; reflexivity|].
  split; [exact HiB0|]. split; [exact HTheta|].
  rewrite HTheta. unfold final_Theta, multi_dot3.
  apply matmul_proper; [reflexivity|]. symmetry.
  rewrite HiB0. apply (penrose_symmetric (m s') (nr_B0 s')); [|exact Hpen].
  intros k l _ _. unfold transpose. apply nr_B0_symmetric.
Qed.

End Converged.

(** ** Bilinear forms *)

Section Bilinear.

Variable k : nat.
Variable S : mat.

Lemma bil_ext (v v' w w' : vec) :
  (forall a, (a < k)%nat -> v a = v' a) -> (forall a, (a < k)%nat -> w a = w' a) ->
  bil k S v w = bil k S v' w'.
Proof.
  intros Hv Hw. unfold bil. apply rsum_ext. intros l Hl. rewrite Hw by exact Hl.
  f_equal. apply rsum_ext. intros a Ha. rewrite Hv by exact Ha. reflexivity.
Qed.

Lemma bil_plus_l (v v' w : vec) :
  bil k S (fun a => v a + v' a) w = bil k S v w + bil k S v' w.
Proof.
  unfold bil. rewrite <- rsum_plus. apply rsum_ext. intros l _.
  rewrite <- Rmult_plus_distr_r, <- rsum_plus. f_equal.
  apply rsum_ext. intros a _. ring.
Qed.

Lemma bil_plus_r (v w w' : vec) :
  bil k S v (fun a => w a + w' a) = bil k S v w + bil k S v w'.
Proof.
  unfold bil. rewrite <- rsum_plus. apply rsum_ext. intros l _. ring.
Qed.

Lemma bil_scal_l (x : R) (v w : vec) :
  bil k S (fun a => x * v a) w = x * bil k S v w.
Proof.
  unfold bil. rewrite <- rsum_scal_l. apply rsum_ext. intros l _.
  rewrite <- Rmult_assoc, <- rsum_scal_l. f_equal.
  apply rsum_ext. intros a _. ring.
Qed.

Lemma bil_scal_r (x : R) (v w : vec) :
  bil k S v (fun a => x * w a) = x * bil k S v w.
Proof.
  unfold bil. rewrite <- rsum_scal_l. apply rsum_ext. intros l _. ring.
Qed.

(** [v^T . S . w] as [v . (S . w)]. *)
Lemma bil_matvec (v w : vec) :
  bil k S v w = rsum k (fun a => v a * matvec k S w a).
Proof.
  unfold bil, matvec.
  rewrite (rsum_ext k _ (fun l => rsum k (fun a => v a * S a l * w l)))
    by (intros; rewrite <- rsum_scal_r; reflexivity).
  rewrite rsum_swap. apply rsum_ext. intros a _.
  rewrite <- rsum_scal_l. apply rsum_ext. intros l _. ring.
Qed.

Hypothesis S_symmetric : forall a l, (a < k)%nat -> (l < k)%nat -> S a l = S l a.

Lemma bil_sym (v w : vec) : bil k S v w = bil k S w v.
Proof.
  rewrite (bil_matvec w v). unfold bil, matvec. apply rsum_ext. intros l Hl.
  rewrite Rmult_comm. f_equal. apply rsum_ext. intros a Ha.
  rewrite (S_symmetric a l) by assumption. ring.
Qed.

(** A vector in the kernel of [S] drops out of the form. *)
Lemma bil_kernel_r (v w : vec) :
  (forall a, (a < k)%nat -> matvec k S w a = 0) -> bil k S v w = 0.
Proof.
  intros H. rewrite bil_matvec. apply rsum_zero. intros a Ha.
  rewrite H by exact Ha. ring.
Qed.

Lemma bil_kernel_shift (x : R) (v w : vec) :
  (forall a, (a < k)%nat -> matvec k S w a = 0) ->
  bil k S (fun a => v a + x * w a) (fun a => v a + x * w a) = bil k S v v.
Proof.
  intros H.
  rewrite bil_plus_l, !bil_plus_r, !bil_scal_l, !bil_scal_r.
  rewrite (bil_kernel_r v w H), (bil_kernel_r w w H).
  rewrite (bil_sym w v), (bil_kernel_r v w H). ring.
Qed.

End Bilinear.

(** ** Reweighting to a sampled state *)

Section OwnState.

Variable pinv : nat -> mat -> mat.
Variable self : mixture.
Variable i : nat.

Hypothesis self_solved : solved pinv self.
Hypothesis i_state : (i < m self)%nat.
Hypothesis pi_positive : forall j, (j < m self)%nat -> 0 < pi self j.
Hypothesis n_positive : forall j, (j < m self)%nat -> (0 < n self j)%nat.

Let u_i := own_potential self i.

(** The normalising factor of state [i]: [exp(f_i + log(pi_i))]. *)
Let c := exp (nr_g self i).

Lemma own_c_pos : 0 < c.
Proof. apply exp_pos. Qed.

Lemma own_c_value : c = exp (f self i) * pi self i.
Proof.
  unfold c, nr_g. rewrite exp_plus, exp_ln by (apply pi_positive, i_state).
  reflexivity.
Qed.

Lemma m_positive : (0 < m self)%nat.
Proof. lia. Qed.

Lemma exp_nr_u0 (j t : nat) :
  exp (nr_u0 self j t) = exp (- nr_xmax self j t) / nr_denom self j t.
Proof.
  pose proof (nr_denom_pos self j t m_positive) as Hd.
  unfold nr_u0.
  rewrite Ropp_plus_distr, exp_plus, (exp_Ropp (ln (nr_denom self j t))).
  rewrite exp_ln by exact Hd. reflexivity.
Qed.

(** The weight of a configuration is its posterior probability of state
    [i], divided by the normalising factor. *)
Lemma own_weight (j t : nat) : tgt_w self u_i j t = P self j i t / c.
Proof.
  destruct self_solved as (HP & Hu0 & _).
  pose proof (nr_denom_pos self j t m_positive) as Hd.
  unfold tgt_w. rewrite HP, Hu0. unfold u_i, own_potential.
  unfold Rminus. rewrite exp_plus, exp_nr_u0.
  unfold nr_P, nr_numer, nr_x, c.
  replace (nr_g self i - u self j i t - nr_xmax self j t)
    with (nr_g self i + (- u self j i t + - nr_xmax self j t)) by ring.
  rewrite !exp_plus. pose proof (exp_pos (nr_g self i)). field. split; lra.
Qed.

Lemma own_mean_weight (j : nat) :
  mean (n self j) (tgt_w self u_i j) = pm self j i / c.
Proof.
  destruct self_solved as (HP & _ & Hpm & _). rewrite Hpm. unfold nr_pm, mean.
  rewrite (rsum_ext _ _ (fun t => P self j i t / c)) by (intros; apply own_weight).
  rewrite rsum_div, HP. unfold Rdiv.
  rewrite Rmult_assoc, (Rmult_comm (/ c)), <- Rmult_assoc. reflexivity.
Qed.

Lemma own_total_weight :
  rsum (m self) (fun j => pi self j * mean (n self j) (tgt_w self u_i j))
  = p0 self i / c.
Proof.
  destruct self_solved as (_ & _ & Hpm & Hp0 & _). rewrite Hp0. unfold nr_p0.
  rewrite <- rsum_div. apply rsum_ext. intros j _.
  rewrite own_mean_weight, Hpm. unfold Rdiv. ring.
Qed.

Lemma own_pm_pos (j k : nat) : (j < m self)%nat -> 0 < nr_pm self j k.
Proof.
  intros Hj. unfold nr_pm, mean. apply Rdiv_lt_0_compat.
  - apply rsum_pos; [apply n_positive, Hj|]. intros t _. apply nr_P_pos, m_positive.
  - apply lt_0_INR, n_positive, Hj.
Qed.

Lemma own_p0_pos (k : nat) : 0 < p0 self k.
Proof.
  destruct self_solved as (_ & _ & _ & Hp0 & _). rewrite Hp0. unfold nr_p0.
  apply rsum_pos; [exact m_positive|]. intros j Hj.
  apply Rmult_lt_0_compat; [apply pi_positive, Hj|apply own_pm_pos, Hj].
Qed.

(** [iw0] is the normalising factor over the mixture probability of [i]. *)
Lemma own_iw0 : tgt_iw0 self u_i = c / p0 self i.
Proof.
  unfold tgt_iw0. rewrite own_total_weight.
  pose proof own_c_pos. pose proof (own_p0_pos i). field. split; lra.
Qed.

(** The reweighted free energy is that of state [i], off by the logarithm
    of the ratio that the self-consistency equations drive to one. *)
Lemma own_value (ref : nat) :
  tgt_f self u_i ref = f self i - f self ref + ln (pi self i / p0 self i).
Proof.
  unfold tgt_f. rewrite own_iw0, own_c_value.
  pose proof (own_p0_pos i) as Hp. pose proof (pi_positive i i_state) as Hpi.
  pose proof (exp_pos (f self i)) as He.
  replace (exp (f self i) * pi self i / p0 self i)
    with (exp (f self i) * (pi self i / p0 self i)) by (field; lra).
  rewrite ln_mult; [|exact He|apply Rdiv_lt_0_compat; assumption].
  rewrite ln_exp. ring.
Qed.

(** *** The covariance blocks *)

Lemma own_block_dev (j bsz q : nat) :
  block_dev bsz (as_row (tgt_w self u_i j)) (pt_wm self u_i j) O q
  = block_dev bsz (P self j) (pm self j) i q / c.
Proof.
  unfold block_dev, as_row, pt_wm. rewrite own_mean_weight.
  rewrite (rsum_ext _ _ (fun t => P self j i (q * bsz + t)%nat / c))
    by (intros; apply own_weight).
  rewrite rsum_div. unfold Rdiv. ring.
Qed.

Lemma own_Sp0w0 (k : nat) : pt_Sp0w0 self u_i k O = Sp0 self k i / c.
Proof.
  destruct self_solved as (_ & _ & _ & _ & _ & HSp0 & _). rewrite HSp0.
  unfold pt_Sp0w0, final_Sp0, covariance, cross_covariance.
  rewrite <- rsum_div. apply rsum_ext. intros j _.
  rewrite (rsum_ext _ _ (fun q =>
    block_dev (b self j) (P self j) (pm self j) k q
    * block_dev (b self j) (P self j) (pm self j) i q / c)).
  - rewrite rsum_div. unfold Rdiv. ring.
  - intros q _. rewrite own_block_dev. unfold Rdiv. ring.
Qed.

Lemma own_Sw0 : pt_Sw0 self u_i O O = Sp0 self i i / c / c.
Proof.
  destruct self_solved as (_ & _ & _ & _ & _ & HSp0 & _). rewrite HSp0.
  unfold pt_Sw0, final_Sp0, covariance, cross_covariance.
  rewrite <- !rsum_div. apply rsum_ext. intros j _.
  rewrite (rsum_ext _ _ (fun q =>
    block_dev (b self j) (P self j) (pm self j) i q
    * block_dev (b self j) (P self j) (pm self j) i q / c / c)).
  - rewrite !rsum_div. unfold Rdiv. ring.
  - intros q _. rewrite own_block_dev. unfold Rdiv. ring.
Qed.

Lemma Sp0_symmetric (a l : nat) : Sp0 self a l = Sp0 self l a.
Proof.
  destruct self_solved as (_ & _ & _ & _ & _ & HSp0 & _). rewrite HSp0.
  unfold final_Sp0, covariance, cross_covariance. apply rsum_ext. intros j _.
  f_equal. f_equal. apply rsum_ext. intros q _. ring.
Qed.

(** The deviations of the states' block averages add up to zero, because
    the posterior probabilities of a configuration add up to one. *)
Lemma block_dev_states (j q : nat) :
  (j < m self)%nat -> (q < n self j / b self j)%nat ->
  rsum (m self) (fun l => block_dev (b self j) (P self j) (pm self j) l q) = 0.
Proof.
  intros Hj Hq. destruct self_solved as (HP & _ & Hpm & _).
  assert (b self j <> 0)%nat as Hb.
  { intros H0. rewrite H0 in Hq. simpl in Hq. lia. }
  assert (INR (b self j) <> 0) as Hb' by (apply not_0_INR, Hb).
  assert (INR (n self j) <> 0) as Hn'.
  { apply not_0_INR. pose proof (n_positive j Hj). lia. }
  unfold block_dev. rewrite rsum_minus, rsum_div, rsum_swap.
  rewrite (rsum_ext (b self j) _ (fun _ => 1)).
  2:{ intros t _. rewrite HP. apply nr_P_column, m_positive. }
  rewrite Hpm. unfold nr_pm, mean. rewrite rsum_div, rsum_swap.
  rewrite (rsum_ext (n self j) _ (fun _ => 1)).
  2:{ intros t _. apply nr_P_column, m_positive. }
  rewrite !rsum_const. field. split; assumption.
Qed.

Lemma Sp0_rows_sum_to_zero (a : nat) : rsum (m self) (fun l => Sp0 self a l) = 0.
Proof.
  destruct self_solved as (_ & _ & _ & _ & _ & HSp0 & _). rewrite HSp0.
  unfold final_Sp0. rewrite rsum_swap. apply rsum_zero. intros j Hj.
  rewrite rsum_scal_l. unfold covariance, cross_covariance.
  rewrite rsum_div, rsum_swap.
  rewrite (rsum_zero (n self j / b self j)); [unfold Rdiv; ring|].
  intros q Hq. rewrite rsum_scal_l, block_dev_states by assumption. ring.
Qed.

(** *** The Jacobian *)

Variable ref : nat.
Hypothesis ref_state : (ref < m self)%nat.
Hypothesis iB0_pseudo_inverse : penrose (m self) (nr_B0 self) (iB0 self).
Hypothesis B0_kernel : kernel_is_constants (m self) (nr_B0 self).

(** [1 / p0_i], the weight of the last entry of [G] once the factor
    [1 / c] of the covariance blocks is taken out. *)
Let kappa := / p0 self i.

Lemma own_second_moment (k : nat) :
  rsum (m self) (fun j =>
    pi self j * mean (n self j) (fun t => P self j i t * P self j k t))
  = diag (p0 self) k i - nr_B0 self k i.
Proof.
  destruct self_solved as (HP & _ & _ & Hp0 & _).
  unfold nr_B0. rewrite <- Hp0, <- HP.
  match goal with |- ?l = ?d - (?d - ?r) => replace (d - (d - r)) with r by ring end.
  apply rsum_ext. intros j _. unfold mean, matmul, transpose, Rdiv.
  rewrite Rmult_assoc. f_equal. f_equal. apply rsum_ext. intros t _. ring.
Qed.

Lemma own_pu (k : nat) :
  tgt_pu self u_i k = basis i k - kappa * nr_B0 self k i.
Proof.
  pose proof own_c_pos as Hc. pose proof (own_p0_pos i) as Hp.
  unfold tgt_pu. rewrite own_iw0.
  rewrite (rsum_ext _ _ (fun j =>
    pi self j * mean (n self j) (fun t => P self j i t * P self j k t) / c)).
  2:{ intros j _. unfold mean.
      rewrite (rsum_ext _ _ (fun t => P self j i t * P self j k t / c)).
      - rewrite rsum_div. unfold Rdiv. ring.
      - intros t _. rewrite own_weight. unfold Rdiv. ring. }
  rewrite rsum_div, own_second_moment. unfold diag, basis, kappa.
  destruct (Nat.eqb_spec k i) as [->|_]; field; split; lra.
Qed.

(** The column of [iB0] for state [x]. *)
Let col (x : nat) : vec := fun a => iB0 self a x.

(** [e_i - iB0 . B0 . e_i], which [B0] sends to zero. *)
Let nvec : vec := fun a => basis i a - matmul (m self) (iB0 self) (nr_B0 self) a i.

Lemma matvec_basis (A : mat) (x a : nat) :
  (x < m self)%nat -> matvec (m self) A (basis x) a = A a x.
Proof.
  intros Hx. unfold matvec, basis.
  rewrite (rsum_ext _ _ (fun l => if (l =? x)%nat then A a l else 0)).
  - apply rsum_delta, Hx.
  - intros l _. destruct (l =? x)%nat; ring.
Qed.

Lemma own_G (a : nat) :
  (a < m self)%nat ->
  pt_G self u_i ref a + kappa * basis i a
  = (col i a + -1 * col ref a) + kappa * nvec a.
Proof.
  intros Ha. unfold pt_G. destruct (Nat.ltb_spec a (m self)) as [_|]; [|lia].
  unfold matvec, tgt_pu_ref.
  rewrite (rsum_ext _ _ (fun l =>
    iB0 self a l * basis i l + -1 * (iB0 self a l * basis ref l)
    + - kappa * (iB0 self a l * nr_B0 self l i))).
  2:{ intros l _. rewrite own_pu. unfold basis.
      destruct (l =? ref)%nat; ring. }
  rewrite !rsum_plus, !rsum_scal_l.
  change (rsum (m self) (fun l => iB0 self a l * basis i l))
    with (matvec (m self) (iB0 self) (basis i) a).
  change (rsum (m self) (fun l => iB0 self a l * basis ref l))
    with (matvec (m self) (iB0 self) (basis ref) a).
  rewrite !matvec_basis by assumption.
  unfold nvec, col, matmul. ring.
Qed.

Lemma nvec_in_kernel (a : nat) :
  (a < m self)%nat -> matvec (m self) (nr_B0 self) nvec a = 0.
Proof.
  intros Ha. destruct iB0_pseudo_inverse as (H1 & _).
  unfold matvec, nvec.
  rewrite (rsum_ext _ _ (fun l =>
    nr_B0 self a l * basis i l
    - nr_B0 self a l * matmul (m self) (iB0 self) (nr_B0 self) l i))
    by (intros; ring).
  rewrite rsum_minus.
  change (rsum (m self) (fun l => nr_B0 self a l * basis i l))
    with (matvec (m self) (nr_B0 self) (basis i) a).
  rewrite matvec_basis by exact i_state.
  change (rsum (m self) (fun l =>
            nr_B0 self a l * matmul (m self) (iB0 self) (nr_B0 self) l i))
    with (matmul (m self) (nr_B0 self) (matmul (m self) (iB0 self) (nr_B0 self)) a i).
  rewrite <- (matmul_assoc (m self) _ _ _ a i Ha i_state).
  rewrite (H1 a i Ha i_state). ring.
Qed.

Lemma nvec_in_kernel_of_Sp0 (a : nat) :
  (a < m self)%nat -> matvec (m self) (Sp0 self) nvec a = 0.
Proof.
  intros Ha. destruct (B0_kernel nvec nvec_in_kernel) as (c0 & Hc0).
  unfold matvec.
  rewrite (rsum_ext _ _ (fun l => Sp0 self a l * c0))
    by (intros l Hl; rewrite Hc0 by exact Hl; reflexivity).
  rewrite rsum_scal_r, Sp0_rows_sum_to_zero. ring.
Qed.

(** *** The variance *)

Lemma bil_basis_r (S : mat) (v : vec) (x : nat) :
  (x < m self)%nat ->
  bil (m self) S v (basis x) = rsum (m self) (fun a => v a * S a x).
Proof.
  intros Hx. rewrite bil_matvec. apply rsum_ext. intros a _.
  rewrite matvec_basis by exact Hx. reflexivity.
Qed.

(** The variance that [__perturb__] forms on the bordered array is the
    form of [Sp0] at the vector that carries the border. *)
Lemma own_var :
  pt_var self u_i ref
  = bil (m self) (Sp0 self)
      (fun a => pt_G self u_i ref a + kappa * basis i a)
      (fun a => pt_G self u_i ref a + kappa * basis i a).
Proof.
  pose proof own_c_pos as Hc. pose proof (own_p0_pos i) as Hp.
  assert (forall a l, (a < m self)%nat -> (l < m self)%nat ->
            Sp0 self a l = Sp0 self l a) as Hsym by (intros; apply Sp0_symmetric).
  set (g := pt_G self u_i ref).
  rewrite bil_plus_l, !bil_plus_r, !bil_scal_l, !bil_scal_r.
  rewrite (bil_sym (m self) (Sp0 self) Hsym (basis i) g).
  rewrite !bil_basis_r by exact i_state.
  rewrite (rsum_ext (m self) (fun a => basis i a * Sp0 self a i)
             (fun a => if (a =? i)%nat then Sp0 self a i else 0)).
  2:{ intros a _. unfold basis. destruct (a =? i)%nat; ring. }
  rewrite rsum_delta by exact i_state.
  (* the bordered form *)
  unfold pt_var. fold g.
  assert (forall l, (l < m self)%nat ->
            rsum (m self + 1) (fun a => g a * pt_Ss0 self u_i a l)
            = rsum (m self) (fun a => g a * Sp0 self a l)
              + kappa * Sp0 self l i) as Hrow.
  { intros l Hl. rewrite rsum_app. simpl rsum. rewrite Nat.add_0_r. f_equal.
    - apply rsum_ext. intros a Ha. unfold pt_Ss0, block2x2.
      destruct (Nat.ltb_spec a (m self)); [|lia].
      destruct (Nat.ltb_spec l (m self)); [|lia]. reflexivity.
    - unfold g, pt_G, pt_Ss0, block2x2, transpose.
      rewrite Nat.ltb_irrefl. destruct (Nat.ltb_spec l (m self)); [|lia].
      rewrite Nat.sub_diag, own_Sp0w0, own_iw0. unfold kappa. field. split; lra. }
  assert (rsum (m self + 1) (fun a => g a * pt_Ss0 self u_i a (m self))
          = rsum (m self) (fun a => g a * Sp0 self a i) / c
            + kappa * Sp0 self i i / c) as Hlast.
  { rewrite rsum_app. simpl rsum. rewrite Nat.add_0_r. f_equal.
    - rewrite <- rsum_div. apply rsum_ext. intros a Ha.
      unfold pt_Ss0, block2x2. destruct (Nat.ltb_spec a (m self)); [|lia].
      rewrite Nat.ltb_irrefl, Nat.sub_diag, own_Sp0w0. unfold Rdiv. ring.
    - unfold g, pt_G, pt_Ss0, block2x2. rewrite Nat.ltb_irrefl, Nat.sub_diag.
      rewrite own_Sw0, own_iw0. unfold kappa. field. split; lra. }
  rewrite rsum_app. simpl rsum. rewrite Nat.add_0_r. rewrite Hlast.
  rewrite (rsum_ext (m self) _ (fun l =>
    rsum (m self) (fun a => g a * Sp0 self a l) * g l
    + kappa * (g l * Sp0 self l i))).
  2:{ intros l Hl. rewrite Hrow by exact Hl. ring. }
  rewrite rsum_plus, rsum_scal_l.
  replace (g (m self)) with (c * kappa).
  2:{ unfold g, pt_G. rewrite Nat.ltb_irrefl, own_iw0. unfold kappa. field. lra. }
  unfold bil. unfold kappa. field. split; lra.
Qed.

Lemma iB0_symmetric (a x : nat) :
  (a < m self)%nat -> (x < m self)%nat -> iB0 self x a = iB0 self a x.
Proof.
  intros Ha Hx.
  apply (penrose_symmetric (m self) (nr_B0 self) (iB0 self)); try assumption.
  intros k l _ _. unfold transpose. apply nr_B0_symmetric.
Qed.

Lemma own_Theta (x z : nat) :
  (x < m self)%nat -> Theta self x z = bil (m self) (Sp0 self) (col x) (col z).
Proof.
  intros Hx. destruct self_solved as (_ & _ & _ & _ & _ & _ & HTheta).
  rewrite HTheta. unfold final_Theta, multi_dot3, matmul, bil, col.
  apply rsum_ext. intros l _. f_equal. apply rsum_ext. intros a Ha.
  rewrite (iB0_symmetric a x) by assumption. reflexivity.
Qed.

(** The variance of the reweighted free energy is the variance that
    [free_energies] reports for the difference of the states [i] and [ref]. *)
Lemma own_error :
  pt_var self u_i ref
  = Theta self i i - 2 * Theta self i ref + Theta self ref ref.
Proof.
  assert (forall a l, (a < m self)%nat -> (l < m self)%nat ->
            Sp0 self a l = Sp0 self l a) as Hsym by (intros; apply Sp0_symmetric).
  rewrite own_var.
  rewrite (bil_ext (m self) (Sp0 self) _
             (fun a => (col i a + -1 * col ref a) + kappa * nvec a) _
             (fun a => (col i a + -1 * col ref a) + kappa * nvec a))
    by (intros; apply own_G; assumption).
  rewrite (bil_kernel_shift (m self) (Sp0 self) Hsym kappa
             (fun a => col i a + -1 * col ref a) nvec nvec_in_kernel_of_Sp0).
  rewrite bil_plus_l, !bil_plus_r, !bil_scal_l, !bil_scal_r.
  rewrite (bil_sym (m self) (Sp0 self) Hsym (col ref) (col i)).
  rewrite !own_Theta by assumption. ring.
Qed.

End OwnState.

(** *** Arrays applied to vectors *)

Lemma matvec_ext (k : nat) (A A' : mat) (v v' : vec) (a : nat) :
  (forall l, (l < k)%nat -> A a l = A' a l) ->
  (forall l, (l < k)%nat -> v l = v' l) ->
  matvec k A v a = matvec k A' v' a.
Proof.
  intros HA Hv. unfold matvec. apply rsum_ext. intros l Hl.
  rewrite HA, Hv by exact Hl. reflexivity.
Qed.

Lemma matvec_matmul (k : nat) (A C : mat) (v : vec) (a : nat) :
  matvec k A (matvec k C v) a = matvec k (matmul k A C) v a.
Proof.
  unfold matvec, matmul.
  rewrite (rsum_ext k _ (fun l => rsum k (fun p => A a l * C l p * v p)))
    by (intros; rewrite <- rsum_scal_l; apply rsum_ext; intros; ring).
  rewrite rsum_swap. apply rsum_ext. intros p _.
  rewrite <- rsum_scal_r. reflexivity.
Qed.

Lemma matvec_minus (k : nat) (A : mat) (v w : vec) (a : nat) :
  matvec k A (fun l => v l - w l) a = matvec k A v a - matvec k A w a.
Proof.
  unfold matvec. rewrite <- rsum_minus. apply rsum_ext. intros l _. ring.
Qed.

(** A logarithm near one. *)
Lemma ln_le (x z : R) : 0 < x -> x <= z -> ln x <= ln z.
Proof.
  intros Hx [H| ->]; [left; apply ln_increasing; assumption|lra].
Qed.

Lemma ln_ratio_bound (t p x : R) :
  0 <= t < 1 / 2 -> 0 < p -> Rabs (x - p) <= 2 * t * p ->
  Rabs (ln (x / p)) <= - ln (1 - 2 * t).
Proof.
  intros [Ht0 Ht1] Hp Hx.
  assert (1 - 2 * t <= x / p <= 1 + 2 * t) as [Hlo Hhi].
  { assert (- (2 * t * p) <= x - p <= 2 * t * p) as [H1 H2]
      by (unfold Rabs in Hx; destruct (Rcase_abs (x - p)); lra).
    split.
    - apply Rmult_le_reg_r with p; [exact Hp|].
      replace (x / p * p) with x by (field; lra). lra.
    - apply Rmult_le_reg_r with p; [exact Hp|].
      replace (x / p * p) with x by (field; lra). lra. }
  assert (ln (1 - 2 * t) <= ln (x / p)) as H1 by (apply ln_le; lra).
  assert (ln (x / p) <= ln (1 + 2 * t)) as H2 by (apply ln_le; lra).
  assert (ln (1 + 2 * t) + ln (1 - 2 * t) <= 0) as H3.
  { rewrite <- ln_mult by lra. rewrite <- ln_1. apply ln_le; nra. }
  unfold Rabs. destruct (Rcase_abs (ln (x / p))); lra.
Qed.

(** ** How far the self-consistency equations are from holding *)

Section Residual.

Variable pinv : nat -> mat -> mat.
Variable self : mixture.
Variable i : nat.

Hypothesis self_solved : solved pinv self.
Hypothesis i_state : (i < m self)%nat.
Hypothesis pi_positive : forall j, (j < m self)%nat -> 0 < pi self j.
Hypothesis n_positive : forall j, (j < m self)%nat -> (0 < n self j)%nat.
Hypothesis pi_total : rsum (m self) (pi self) = 1.
Hypothesis iB0_pseudo_inverse : penrose (m self) (nr_B0 self) (iB0 self).

Lemma pm_total (j : nat) : (j < (m self))%nat -> rsum (m self) (fun k => pm self j k) = 1.
Proof.
  intros Hj. destruct self_solved as (_ & _ & Hpm & _). rewrite Hpm.
  unfold nr_pm, mean. rewrite rsum_div, rsum_swap.
  rewrite (rsum_ext _ _ (fun _ => 1)).
  - rewrite rsum_const. field. apply not_0_INR.
    pose proof (n_positive j Hj). lia.
  - intros t _. apply nr_P_column. lia.
Qed.

Lemma p0_total : rsum (m self) (p0 self) = 1.
Proof.
  destruct self_solved as (_ & _ & Hpm & Hp0 & _). rewrite Hp0. unfold nr_p0.
  rewrite rsum_swap. rewrite <- pi_total. apply rsum_ext. intros j Hj.
  rewrite rsum_scal_l. rewrite <- Hpm, pm_total by exact Hj. ring.
Qed.

(** The second moments [sum_j pi_j mean(P_j[k] P_j[l])], which [B0]
    subtracts from [diag(p0)]. *)
Let Sm : mat := fun k l => diag (p0 self) k l - (nr_B0 self) k l.

Lemma Sm_moment (k l : nat) :
  Sm k l
  = rsum (m self) (fun j => pi self j * mean (n self j) (fun t => P self j l t * P self j k t)).
Proof.
  unfold Sm. symmetry. apply (own_second_moment pinv self l self_solved).
Qed.

Lemma P_nonneg (j k t : nat) : 0 <= P self j k t.
Proof.
  destruct self_solved as (HP & _). rewrite HP. left. apply nr_P_pos.
  lia.
Qed.

Lemma Sm_nonneg (k l : nat) : 0 <= Sm k l.
Proof.
  rewrite Sm_moment. apply rsum_nonneg. intros j Hj.
  apply Rmult_le_pos; [left; apply pi_positive, Hj|].
  unfold mean. apply Rmult_le_pos.
  - apply rsum_nonneg. intros t _. apply Rmult_le_pos; apply P_nonneg.
  - left. apply Rinv_0_lt_compat, lt_0_INR, n_positive, Hj.
Qed.

Lemma Sm_row_total (k : nat) : rsum (m self) (fun l => Sm k l) = p0 self k.
Proof.
  destruct self_solved as (HP & _ & Hpm & Hp0 & _).
  rewrite (rsum_ext _ _ (fun l =>
    rsum (m self) (fun j =>
      pi self j * mean (n self j) (fun t => P self j l t * P self j k t))))
    by (intros; apply Sm_moment).
  rewrite rsum_swap. rewrite Hp0. unfold nr_p0. apply rsum_ext. intros j Hj.
  rewrite rsum_scal_l. f_equal. unfold nr_pm, mean.
  rewrite rsum_div, rsum_swap. f_equal. apply rsum_ext. intros t _.
  rewrite rsum_scal_r, HP, nr_P_column by lia. ring.
Qed.

Lemma diag_row_total (v : vec) (k : nat) :
  (k < (m self))%nat -> rsum (m self) (fun l => diag v k l) = v k.
Proof.
  intros Hk. unfold diag.
  rewrite (rsum_ext _ _ (fun l => if (l =? k)%nat then v l else 0)).
  - apply rsum_delta, Hk.
  - intros l _. rewrite Nat.eqb_sym.
    destruct (Nat.eqb_spec l k) as [->|]; reflexivity.
Qed.

(** The rows of [B0] sum to zero: the constants are in its kernel. *)
Lemma B0_row_total (k : nat) : (k < (m self))%nat -> rsum (m self) (fun l => (nr_B0 self) k l) = 0.
Proof.
  intros Hk.
  rewrite (rsum_ext _ _ (fun l => diag (p0 self) k l - Sm k l))
    by (intros; unfold Sm; ring).
  rewrite rsum_minus, diag_row_total, Sm_row_total by exact Hk. ring.
Qed.

Lemma B0_row_abs (k : nat) :
  (k < (m self))%nat -> rsum (m self) (fun l => Rabs ((nr_B0 self) k l)) <= 2 * p0 self k.
Proof.
  intros Hk.
  apply Rle_trans with (rsum (m self) (fun l => diag (p0 self) k l + Sm k l)).
  - apply rsum_le. intros l _.
    replace ((nr_B0 self) k l) with (diag (p0 self) k l - Sm k l) by (unfold Sm; ring).
    pose proof (Sm_nonneg k l) as HS.
    assert (0 <= diag (p0 self) k l) as HD.
    { unfold diag. destruct (k =? l)%nat; [|lra].
      left. apply (own_p0_pos pinv self i self_solved i_state pi_positive n_positive). }
    unfold Rabs. destruct (Rcase_abs _); lra.
  - rewrite rsum_plus, diag_row_total, Sm_row_total by exact Hk. lra.
Qed.

(** *** The kernel of [B0]

    [B0] is [diag(p0)] minus the array of second moments, whose entries
    are positive and whose rows sum to [p0]: the Laplacian of a complete
    weighted graph.  Its kernel is the line of the constant vectors. *)

Lemma Sm_symmetric (k l : nat) : Sm k l = Sm l k.
Proof.
  rewrite !Sm_moment. apply rsum_ext. intros j _. f_equal. unfold mean. f_equal.
  apply rsum_ext. intros t _. ring.
Qed.

Lemma Sm_pos (k l : nat) : 0 < Sm k l.
Proof.
  destruct self_solved as (HP & _).
  rewrite Sm_moment. apply rsum_pos; [lia|]. intros j Hj.
  apply Rmult_lt_0_compat; [apply pi_positive, Hj|].
  unfold mean. apply Rdiv_lt_0_compat.
  - apply rsum_pos; [apply n_positive, Hj|]. intros t _. rewrite HP.
    apply Rmult_lt_0_compat; apply nr_P_pos; lia.
  - apply lt_0_INR, n_positive, Hj.
Qed.

Lemma B0_apply (v : vec) (k : nat) :
  (k < m self)%nat ->
  matvec (m self) (nr_B0 self) v k = rsum (m self) (fun l => Sm k l * (v k - v l)).
Proof.
  intros Hk. unfold matvec.
  rewrite (rsum_ext _ _ (fun l => diag (p0 self) k l * v l - Sm k l * v l))
    by (intros; unfold Sm; ring).
  rewrite rsum_minus.
  rewrite (rsum_ext _ (fun l => diag (p0 self) k l * v l)
             (fun l => if (l =? k)%nat then p0 self l * v l else 0)).
  2:{ intros l _. unfold diag. rewrite Nat.eqb_sym.
      destruct (Nat.eqb_spec l k) as [->|]; ring. }
  rewrite rsum_delta by exact Hk. rewrite <- (Sm_row_total k).
  rewrite <- rsum_scal_r, <- rsum_minus. apply rsum_ext. intros l _. ring.
Qed.

Lemma B0_kernel_is_constants : kernel_is_constants (m self) (nr_B0 self).
Proof.
  intros v Hv. exists (v O). intros a Ha.
  set (T := rsum (m self) (fun k => rsum (m self) (fun l => Sm k l * (v k - v l)) * v k)).
  assert (T = 0) as HT.
  { apply rsum_zero. intros k Hk. rewrite <- B0_apply, Hv by exact Hk. ring. }
  assert (T = rsum (m self) (fun k =>
                rsum (m self) (fun l => Sm k l * (v k - v l) * v k))) as E1.
  { apply rsum_ext. intros k _. rewrite <- rsum_scal_r. reflexivity. }
  assert (T = rsum (m self) (fun k =>
                rsum (m self) (fun l => Sm k l * (v l - v k) * v l))) as E2.
  { rewrite E1, rsum_swap. apply rsum_ext. intros k _. apply rsum_ext. intros l _.
    rewrite (Sm_symmetric l k). reflexivity. }
  assert (rsum (m self) (fun k =>
            rsum (m self) (fun l => Sm k l * ((v k - v l) * (v k - v l)))) = 0) as HQ.
  { rewrite (rsum_ext _ _ (fun k =>
      rsum (m self) (fun l => Sm k l * (v k - v l) * v k)
      + rsum (m self) (fun l => Sm k l * (v l - v k) * v l))).
    - rewrite rsum_plus, <- E1, <- E2.
      lra.
    - intros k _. rewrite <- rsum_plus. apply rsum_ext. intros l _. ring. }
  assert (forall k l, 0 <= Sm k l * ((v k - v l) * (v k - v l))) as Hterm.
  { intros k l. apply Rmult_le_pos; [left; apply Sm_pos|].
    apply (Rle_0_sqr (v k - v l)). }
  pose proof (rsum_nonneg_zero (m self) _
    (fun k _ => rsum_nonneg (m self) _ (fun l _ => Hterm k l)) HQ a Ha) as Hrow.
  pose proof (rsum_nonneg_zero (m self) _ (fun l _ => Hterm a l) Hrow O ltac:(lia))
    as Hzero.
  pose proof (Sm_pos a O) as Hpos.
  apply Rmult_integral in Hzero. destruct Hzero as [Hzero|Hzero]; [lra|].
  apply Rmult_integral in Hzero. destruct Hzero; lra.
Qed.

(** *** The residual of the equations and the correction *)

Lemma B0_iB0_commute :
  on_square (m self) (matmul (m self) (nr_B0 self) (iB0 self))
    (matmul (m self) (iB0 self) (nr_B0 self)).
Proof.
  destruct iB0_pseudo_inverse as (_ & _ & H3 & _).
  assert (on_square (m self) (transpose (nr_B0 self)) (nr_B0 self)) as HB.
  { intros k l _ _. unfold transpose. apply nr_B0_symmetric. }
  assert (on_square (m self) (transpose (iB0 self)) (iB0 self)) as HX.
  { apply (penrose_symmetric (m self) (nr_B0 self)); assumption. }
  rewrite <- H3, transpose_matmul, HB, HX. reflexivity.
Qed.

Lemma B0_B0_iB0 :
  on_square (m self)
    (matmul (m self) (nr_B0 self) (matmul (m self) (nr_B0 self) (iB0 self)))
    (nr_B0 self).
Proof.
  destruct iB0_pseudo_inverse as (H1 & _).
  rewrite B0_iB0_commute, <- matmul_assoc. exact H1.
Qed.

(** [B0 . iB0] fixes every vector whose entries sum to zero. *)
Lemma B0_iB0_fixes (v : vec) (k : nat) :
  rsum (m self) v = 0 -> (k < m self)%nat ->
  matvec (m self) (nr_B0 self) (matvec (m self) (iB0 self) v) k = v k.
Proof.
  intros Hv Hk.
  set (w := matvec (m self) (iB0 self) v).
  set (r := fun a => v a - matvec (m self) (nr_B0 self) w a).
  assert (forall a, (a < m self)%nat -> matvec (m self) (nr_B0 self) r a = 0) as Hr.
  { intros a Ha. unfold r. rewrite matvec_minus. unfold w.
    rewrite !matvec_matmul.
    rewrite (matvec_ext (m self)
               (matmul (m self) (matmul (m self) (nr_B0 self) (nr_B0 self)) (iB0 self))
               (nr_B0 self) v v a).
    - ring.
    - intros l Hl. rewrite (matmul_assoc (m self) _ _ _ a l Ha Hl).
      apply B0_B0_iB0; assumption.
    - reflexivity. }
  destruct (B0_kernel_is_constants r Hr) as (c0 & Hc0).
  assert (rsum (m self) r = 0) as Hsum.
  { unfold r. rewrite rsum_minus, Hv. unfold matvec. rewrite rsum_swap.
    rewrite (rsum_zero (m self)); [ring|]. intros l Hl.
    rewrite rsum_scal_r.
    rewrite (rsum_ext _ _ (fun a => nr_B0 self l a))
      by (intros; apply nr_B0_symmetric).
    rewrite (B0_row_total l Hl). ring. }
  rewrite (rsum_ext _ _ (fun _ => c0)) in Hsum by exact Hc0.
  rewrite rsum_const in Hsum.
  assert (c0 = 0) as Hzero.
  { assert (0 < INR (m self)) by (apply lt_0_INR; lia). nra. }
  pose proof (Hc0 k Hk) as Hrk. unfold r in Hrk. lra.
Qed.

(** The residual [pi - p0] is [B0] applied to the correction (with a zero
    in front for state 0). *)
Lemma residual_is_B0_correction (k : nat) :
  (k < m self)%nat ->
  pi self k - p0 self k
  = matvec (m self) (nr_B0 self)
      (fun l => nr_df_full pinv self l - nr_df_full pinv self O) k.
Proof.
  intros Hk. destruct self_solved as (_ & _ & _ & Hp0 & HiB0 & _).
  rewrite matvec_minus.
  replace (matvec (m self) (nr_B0 self) (fun _ => nr_df_full pinv self O) k) with 0.
  2:{ unfold matvec. rewrite rsum_scal_r, B0_row_total by exact Hk. ring. }
  unfold nr_df_full. rewrite <- HiB0, <- Hp0.
  rewrite B0_iB0_fixes; [ring| |exact Hk].
  rewrite rsum_minus, pi_total, p0_total. ring.
Qed.

(** When the correction is within the tolerance, so is the residual,
    relative to [2 p0]. *)
Lemma residual_within (tol : R) :
  0 <= tol ->
  within_tol (m self - 1) (snd (newton_raphson_iteration pinv self)) tol ->
  Rabs (pi self i - p0 self i) <= 2 * tol * p0 self i.
Proof.
  intros Ht Hdf. rewrite (residual_is_B0_correction i i_state). unfold matvec.
  eapply Rle_trans; [apply rsum_abs|].
  apply Rle_trans with (rsum (m self) (fun l => Rabs (nr_B0 self i l) * tol)).
  - apply rsum_le. intros l Hl. rewrite Rabs_mult.
    apply Rmult_le_compat_l; [apply Rabs_pos|].
    destruct l as [|l].
    + rewrite Rminus_diag, Rabs_R0. exact Ht.
    + apply (Hdf l). lia.
  - rewrite rsum_scal_r. pose proof (B0_row_abs i i_state). nra.
Qed.

End Residual.

Section OwnStateClaim.

Variable pinv : nat -> mat -> mat.

Lemma returned_pi_total (fuel : nat) (tol : R) (self s' : mixture) :
  initialize pinv fuel tol self = Return s' ->
  (0 < m self)%nat ->
  (forall j, (j < m self)%nat -> 0 < neff self j) ->
  rsum (m s') (pi s') = 1 /\ forall j, (j < m s')%nat -> 0 < pi s' j.
Proof.
  intros Hret Hm Hneff.
  destruct (initialize_solved pinv fuel tol self s' Hret) as (_ & Hm' & _ & _ & Hpi & _).
  rewrite Hm', Hpi.
  assert (0 < rsum (m self) (neff self)) as Htot by (apply rsum_pos; assumption).
  split.
  - rewrite rsum_div. field. lra.
  - intros j Hj. apply Rdiv_lt_0_compat; [apply Hneff, Hj|exact Htot].
Qed.

(** C1.  Let the constructor return [s'], from samples that are not empty
    and have positive effective sizes, with [pinv] returning the
    Moore-Penrose pseudo-inverse of the last [B0].  Reweight to the
    potential of a sampled state [i], with any properties.  The standard
    error of the reweighted free energy is the one [free_energies] reports
    for state [i].  The value differs from the reported one by
    [log(pi_i / p0_i)] exactly: it is the reported value when the
    self-consistency equation [p0_i = pi_i] holds, and, the solver having
    stopped at corrections within [tol], it is within [-log(1 - 2 tol)] of
    it (about [2 tol]) for a tolerance below one half. *)
Theorem reweighting_to_sampled_state (fuel : nat) (tol : R) (self s' : mixture)
    (i ref ny : nat) (y : nat -> mat) :
  initialize pinv fuel tol self = Return s' ->
  (i < m self)%nat -> (ref < m self)%nat ->
  (forall j, (j < m self)%nat -> 0 < neff self j) ->
  (forall j, (j < m self)%nat -> (0 < n self j)%nat) ->
  penrose (m s') (nr_B0 s') (pinv (m s') (nr_B0 s')) ->
  exists yu Theta_u fs dfs,
    reweight s' (own_potential s' i) ref ny y = Return (yu, Theta_u) /\
    free_energies s' ref = Return (fs, dfs) /\
    yu O - fs i = ln (pi s' i / p0 s' i) /\
    (p0 s' i = pi s' i -> yu O = fs i) /\
    (0 <= tol < 1 / 2 -> Rabs (yu O - fs i) <= - ln (1 - 2 * tol)) /\
    sqrt (Theta_u O O) = dfs i.
Proof.
  intros Hret Hi Href Hneff Hn Hpen.
  destruct (returned_pi_total fuel tol self s' Hret ltac:(lia) Hneff) as (Hsum & Hpi).
  destruct (initialize_solved pinv fuel tol self s' Hret)
    as (Hsolved & Hm & Hn' & _ & _ & Hdf).
  rewrite <- Hm in Hi, Href, Hdf. rewrite <- Hm, <- Hn' in Hn.
  assert (penrose (m s') (nr_B0 s') (iB0 s')) as Hpen'.
  { destruct Hsolved as (_ & _ & _ & _ & HiB0 & _). rewrite HiB0. exact Hpen. }
  pose proof (B0_kernel_is_constants pinv s' i Hsolved Hi Hpi Hn) as Hker.
  unfold reweight, free_energies.
  destruct (Nat.ltb_spec ref (m s')) as [_|]; [|lia].
  eexists. eexists. eexists. eexists.
  split; [reflexivity|]. split; [reflexivity|].
  change (0 <? 1)%nat with true. cbv beta iota zeta.
  pose proof (own_value pinv s' i Hsolved Hi Hpi Hn ref) as Hval.
  assert (tgt_f s' (own_potential s' i) ref - (f s' i - f s' ref)
          = ln (pi s' i / p0 s' i)) as Hdiff by (rewrite Hval; ring).
  split; [exact Hdiff|]. split; [|split].
  - intros Hfix. rewrite Hval, Hfix.
    replace (pi s' i / pi s' i) with 1 by (field; apply Rgt_not_eq, Hpi, Hi).
    rewrite ln_1. ring.
  - intros Htol. rewrite Hdiff. apply ln_ratio_bound; [exact Htol| |].
    + apply (own_p0_pos pinv s' i Hsolved Hi Hpi Hn).
    + apply (residual_within pinv s' i Hsolved Hi Hpi Hn Hsum Hpen' tol);
        [apply Htol|exact Hdf].
  - rewrite rw_Theta_00.
    rewrite (own_error pinv s' i Hsolved Hi Hpi Hn ref Href Hpen' Hker).
    reflexivity.
Qed.

End OwnStateClaim.

(** ** The worked example *)

Section Example.

Lemma ex_pi (k : nat) : (k < 2)%nat -> pi ex_start k = 1 / 2.
Proof.
  intros Hk. simpl. unfold sample_at.
  destruct k as [|[|k]]; [simpl; lra|simpl; lra|lia].
Qed.

Lemma ex_x_same (i t : nat) : nr_x ex_start i O t = nr_x ex_start i 1%nat t.
Proof. reflexivity. Qed.

Lemma ex_xmax (i t : nat) : nr_xmax ex_start i t = nr_x ex_start i O t.
Proof.
  unfold nr_xmax. simpl amax. rewrite <- ex_x_same. apply Rmax_left. lra.
Qed.

Lemma ex_numer (i k t : nat) : (k < 2)%nat -> nr_numer ex_start i k t = 1.
Proof.
  intros Hk. unfold nr_numer. rewrite ex_xmax.
  destruct k as [|[|k]]; [| rewrite <- ex_x_same |lia];
    rewrite Rminus_diag; apply exp_0.
Qed.

Lemma ex_denom (i t : nat) : nr_denom ex_start i t = 2.
Proof.
  unfold nr_denom. simpl rsum. rewrite !ex_numer by lia. lra.
Qed.

Lemma ex_P (i k t : nat) : (k < 2)%nat -> nr_P ex_start i k t = 1 / 2.
Proof.
  intros Hk. unfold nr_P. rewrite ex_numer by exact Hk. rewrite ex_denom. reflexivity.
Qed.

Lemma ex_n (i : nat) : (i < 2)%nat -> n ex_start i = 4%nat.
Proof. intros Hi. destruct i as [|[|i]]; [reflexivity|reflexivity|lia]. Qed.

Lemma ex_pm (i k : nat) : (i < 2)%nat -> (k < 2)%nat -> nr_pm ex_start i k = 1 / 2.
Proof.
  intros Hi Hk. unfold nr_pm, mean. rewrite ex_n by exact Hi.
  rewrite (rsum_ext 4 _ (fun _ => 1 / 2)) by (intros; apply ex_P, Hk).
  rewrite rsum_const. simpl. lra.
Qed.

Lemma ex_p0 (k : nat) : (k < 2)%nat -> nr_p0 ex_start k = 1 / 2.
Proof.
  intros Hk. unfold nr_p0. change (m ex_start) with 2%nat.
  rewrite (rsum_ext 2 _ (fun _ => 1 / 4)).
  - simpl. lra.
  - intros i Hi. rewrite ex_pi, ex_pm by assumption. lra.
Qed.

(** The self-consistency equations hold on the initial guess: the full
    step, and so the correction, is zero whatever [pinv] returns. *)
Lemma ex_df (pinv : nat -> mat -> mat) (k : nat) :
  snd (loop_entry pinv ex_mixture) k = 0.
Proof.
  assert (forall j, nr_df_full pinv ex_start j = 0) as H.
  { intros j. unfold nr_df_full, matvec. change (m ex_start) with 2%nat.
    apply rsum_zero. intros l Hl. rewrite ex_pi, ex_p0 by exact Hl. lra. }
  change (snd (loop_entry pinv ex_mixture) k)
    with (nr_df_full pinv ex_start (S k) - nr_df_full pinv ex_start O).
  rewrite !H. lra.
Qed.

Lemma ex_define : define ex_overlapSampling ex_samples = Return ex_mixture.
Proof. reflexivity. Qed.

Lemma ex_first_pass_within (pinv : nat -> mat -> mat) (tol : R) :
  0 <= tol -> within_tol 1 (snd (loop_entry pinv ex_mixture)) tol.
Proof. intros Ht j _. rewrite ex_df, Rabs_R0. exact Ht. Qed.

Lemma ex_initialize (pinv : nat -> mat -> mat) (fuel : nat) (tol : R) :
  0 <= tol ->
  initialize pinv (S fuel) tol ex_mixture
  = Return (finish (fst (loop_entry pinv ex_mixture))).
Proof.
  intros Ht. apply initialize_spec. exists O. repeat split; [lia| |].
  - intros j Hj. lia.
  - apply loop_test_within. apply (ex_first_pass_within pinv tol Ht).
Qed.

Lemma default_tol_pos : 0 < default_tol.
Proof. unfold default_tol. apply Rdiv_lt_0_compat; [lra|]. apply pow_lt. lra. Qed.

(** [B0] of the example is [[[1, -1], [-1, 1]] / 4], and the first pass
    stores [[[1, -1], [-1, 1]]] for its pseudo-inverse. *)
Lemma ex_B0 :
  on_square 2 (nr_B0 ex_start) (fun k l => if (k =? l)%nat then 1 / 4 else - (1 / 4)).
Proof.
  intros k l Hk Hl. unfold nr_B0. change (m ex_start) with 2%nat.
  rewrite (rsum_ext 2 _ (fun _ => 1 / 8)).
  - unfold diag. rewrite ex_p0 by exact Hk. simpl rsum.
    destruct (k =? l)%nat; lra.
  - intros i Hi. rewrite ex_pi, ex_n by exact Hi. unfold matmul, transpose.
    rewrite (rsum_ext 4 _ (fun _ => 1 / 4)).
    + rewrite rsum_const. simpl. lra.
    + intros t _. rewrite !ex_P by assumption. lra.
Qed.

Lemma ex_iB0 :
  on_square 2 (ex_pinv 2 (nr_B0 ex_start)) (fun k l => if (k =? l)%nat then 1 else -1).
Proof.
  intros k l Hk Hl. unfold ex_pinv.
  rewrite (ex_B0 O O) by lia. rewrite (ex_B0 k l) by assumption. simpl Nat.eqb.
  destruct (Req_EM_T (1 / 4) 0) as [H|_]; [lra|].
  destruct (k =? l)%nat; field.
Qed.

Lemma ex_penrose : penrose 2 (nr_B0 ex_start) (ex_pinv 2 (nr_B0 ex_start)).
Proof.
  apply (penrose_proper 2 (fun k l => if (k =? l)%nat then 1 / 4 else - (1 / 4)));
    [symmetry; exact ex_B0|].
  apply (penrose_proper_r 2 _ (fun k l => if (k =? l)%nat then 1 else -1));
    [symmetry; exact ex_iB0|].
  repeat split; intros i j Hi Hj;
    destruct i as [|[|i]]; try lia; destruct j as [|[|j]]; try lia;
    unfold transpose, matmul; simpl; lra.
Qed.

Lemma default_tol_small : 0 <= default_tol < 1 / 2.
Proof.
  split; [left; apply default_tol_pos|]. unfold default_tol. simpl pow.
  apply Rmult_lt_reg_r with (10 * (10 * (10 * (10 * (10 * (10 * (10 * (10 * (10 *
                               (10 * (10 * (10 * 1)))))))))))); [lra|].
  unfold Rdiv. rewrite Rmult_assoc, Rinv_l by lra. lra.
Qed.

Lemma ex_neff (j : nat) : (j < m ex_mixture)%nat -> 0 < neff ex_mixture j.
Proof.
  intros Hj. simpl in Hj. destruct j as [|[|j]]; [simpl; lra|simpl; lra|lia].
Qed.

Lemma ex_n_pos (j : nat) : (j < m ex_mixture)%nat -> (0 < n ex_mixture j)%nat.
Proof.
  intros Hj. simpl in Hj. destruct j as [|[|j]]; [simpl; lia|simpl; lia|lia].
Qed.

End Example.

(** ** The claims on the worked example *)

(** The example has a state, and the object its constructor returns has
    distributions for columns. *)
Lemma posterior_columns_example :
  (0 < m ex_mixture)%nat /\ columns_are_distributions ex_final.
Proof.
  assert (0 < m ex_mixture)%nat as Hm by (simpl; lia).
  split; [exact Hm|].
  apply (proj2 (proj2 (posterior_columns_are_distributions ex_pinv ex_mixture Hm))
           1%nat default_tol ex_final).
  apply ex_initialize. left. apply default_tol_pos.
Defined.

(** With the tolerance [-1] every correction of the example exceeds it, and
    the constructor is still running after a thousand turns. *)
Lemma negative_tolerance_never_returns :
  (forall k, exists j, (j < m ex_mixture - 1)%nat /\
     Rabs (snd (after_turns ex_pinv k (loop_entry ex_pinv ex_mixture)) j) > -1) /\
  initialize ex_pinv 1000 (-1) ex_mixture = Running.
Proof.
  assert (forall k, exists j, (j < m ex_mixture - 1)%nat /\
     Rabs (snd (after_turns ex_pinv k (loop_entry ex_pinv ex_mixture)) j) > -1) as H.
  { intros k. exists O. split; [simpl; lia|].
    pose proof (Rabs_pos (snd (after_turns ex_pinv k (loop_entry ex_pinv ex_mixture)) O)).
    lra. }
  split; [exact H|].
  exact (proj1 (proj2 (loop_has_no_iteration_cap ex_pinv (-1) ex_mixture)) H 1000%nat).
Defined.

(** The example converges at its first pass, and the returned [f] is the
    initial guess. *)
Lemma first_pass_convergence_example :
  mixture_init ex_pinv ex_overlapSampling 1 default_tol ex_samples = Return ex_final /\
  exists self k,
    define ex_overlapSampling ex_samples = Return self /\
    f self = ex_overlapSampling (m self) (n self) (u self) /\
    (k < 1)%nat /\
    let sd := after_turns ex_pinv k (loop_entry ex_pinv self) in
    within_tol (m self - 1) (snd sd) default_tol /\
    snd sd = snd (newton_raphson_iteration ex_pinv (fst sd)) /\
    f ex_final = f (fst sd) /\
    match k with
    | O => f ex_final = f self
    | S j =>
        let prev := after_turns ex_pinv j (loop_entry ex_pinv self) in
        ~ within_tol (m self - 1) (snd prev) default_tol /\
        f ex_final = f (add_correction (fst prev) (snd prev))
    end /\
    (within_tol (m self - 1) (snd (loop_entry ex_pinv self)) default_tol ->
     f ex_final = f self).
Proof.
  assert (mixture_init ex_pinv ex_overlapSampling 1 default_tol ex_samples
          = Return ex_final) as H.
  { rewrite mixture_init_unfold, ex_define. apply ex_initialize.
    left. apply default_tol_pos. }
  split; [exact H|].
  exact (converged_f_omits_last_correction ex_pinv ex_overlapSampling 1%nat
           default_tol ex_samples ex_final H).
Defined.

(** The second state of the example as the reference. *)
Lemma free_energies_example :
  (1 < m ex_final)%nat /\
  exists fs dfs,
    free_energies ex_final 1 = Return (fs, dfs) /\
    (forall k, fs k = f ex_final k - f ex_final 1%nat) /\
    (forall k, dfs k = sqrt (Theta ex_final k k - 2 * Theta ex_final k 1%nat
                             + Theta ex_final 1%nat 1%nat)) /\
    fs 1%nat = 0 /\ dfs 1%nat = 0.
Proof.
  assert (1 < m ex_final)%nat as Hm by (simpl; lia).
  split; [exact Hm|].
  exact (free_energies_relative_to_reference ex_final 1%nat Hm).
Defined.

(** The call [reweighting("beta*E", properties={"f": "E"})] on the example. *)
Lemma reserved_name_example :
  In "f"%string (map fst [("f"%string, "E"%string)]) /\
  reweighting unit (fun _ _ _ => Return tt) ex_final "beta*E" [("f"%string, "E"%string)]
  = Raise (TypeError "%i format: a real number is required, not str").
Proof.
  assert (In "f"%string (map fst [("f"%string, "E"%string)])) as H by (left; reflexivity).
  split; [exact H|].
  exact (proj1 (reserved_name_check_raises_type_error unit (fun _ _ _ => Return tt)
                  ex_final "beta*E" [("f"%string, "E"%string)] H)).
Defined.

(** On the example [pinv] returns the pseudo-inverse of [B0], and [Theta]
    is [iB0 . Sp0 . iB0^T]. *)
Lemma theta_example :
  initialize ex_pinv 1 default_tol ex_mixture = Return ex_final /\
  penrose (m ex_final) (nr_B0 ex_final) (ex_pinv (m ex_final) (nr_B0 ex_final)) /\
  on_square (m ex_final) (Theta ex_final)
    (multi_dot3 (m ex_final) (iB0 ex_final) (Sp0 ex_final) (transpose (iB0 ex_final))).
Proof.
  assert (initialize ex_pinv 1 default_tol ex_mixture = Return ex_final) as H.
  { apply ex_initialize. left. apply default_tol_pos. }
  assert (penrose (m ex_final) (nr_B0 ex_final) (ex_pinv (m ex_final) (nr_B0 ex_final)))
    as Hpen by exact ex_penrose.
  split; [exact H|]. split; [exact Hpen|].
  exact (proj2 (proj2 (proj2
    (theta_is_propagated_covariance ex_pinv 1%nat default_tol ex_mixture ex_final H Hpen)))).
Defined.

(** Reweighting the example to the potential of its first state, with the
    second state as the reference. *)
Lemma reweighting_to_first_state_example :
  initialize ex_pinv 1 default_tol ex_mixture = Return ex_final /\
  penrose (m ex_final) (nr_B0 ex_final) (ex_pinv (m ex_final) (nr_B0 ex_final)) /\
  0 <= default_tol < 1 / 2 /\
  exists yu Theta_u fs dfs,
    reweight ex_final (own_potential ex_final O) 1 O (fun _ => zeros2)
    = Return (yu, Theta_u) /\
    free_energies ex_final 1 = Return (fs, dfs) /\
    yu O - fs O = ln (pi ex_final O / p0 ex_final O) /\
    (p0 ex_final O = pi ex_final O -> yu O = fs O) /\
    (0 <= default_tol < 1 / 2 -> Rabs (yu O - fs O) <= - ln (1 - 2 * default_tol)) /\
    sqrt (Theta_u O O) = dfs O.
Proof.
  assert (initialize ex_pinv 1 default_tol ex_mixture = Return ex_final) as H.
  { apply ex_initialize. left. apply default_tol_pos. }
  assert (penrose (m ex_final) (nr_B0 ex_final) (ex_pinv (m ex_final) (nr_B0 ex_final)))
    as Hpen by exact ex_penrose.
  split; [exact H|]. split; [exact Hpen|]. split; [exact default_tol_small|].
  apply (reweighting_to_sampled_state ex_pinv 1%nat default_tol ex_mixture ex_final
           O 1%nat O (fun _ => zeros2) H).
  - simpl; lia.
  - simpl; lia.
  - exact ex_neff.
  - exact ex_n_pos.
  - exact Hpen.
Defined.

(** * Further properties of the solver *)

Section SolverStructure.

Variable pinv : nat -> mat -> mat.

(** The object of any pass, once the covariances are assigned, satisfies
    the equations of a pass on its own [f]. *)
Lemma pass_solved (self : mixture) :
  solved pinv (finish (fst (newton_raphson_iteration pinv self))).
Proof. unfold solved. repeat split. Qed.

Lemma returned_is_finished (fuel : nat) (tol : R) (self s' : mixture) :
  initialize pinv fuel tol self = Return s' -> exists s, s' = finish s.
Proof.
  intros H. apply initialize_spec in H. destruct H as (k & _ & _ & _ & ->).
  eexists. reflexivity.
Qed.

(** X1.  The mixture composition of a returned object is [neff / sum(neff)];
    when the effective sample sizes are positive it is a probability
    vector: positive entries that sum to one. *)
Theorem composition_is_a_distribution (fuel : nat) (tol : R) (self s' : mixture) :
  initialize pinv fuel tol self = Return s' ->
  (0 < m self)%nat ->
  (forall j, (j < m self)%nat -> 0 < neff self j) ->
  (forall j, pi s' j = neff self j / rsum (m self) (neff self)) /\
  rsum (m s') (pi s') = 1 /\
  (forall j, (j < m s')%nat -> 0 < pi s' j).
Proof.
  intros Hret Hm Hneff.
  destruct (returned_pi_total pinv fuel tol self s' Hret Hm Hneff) as (Hsum & Hpos).
  destruct (initialize_solved pinv fuel tol self s' Hret) as (_ & _ & _ & _ & Hpi & _).
  split; [intros j; rewrite Hpi; reflexivity|]. split; assumption.
Qed.

(** X2.  In a returned object, built from samples that are not empty and
    have positive effective sizes, every row of the overlap matrix (the
    mean posterior probabilities [pm[j]] of sample [j]) is a probability
    vector, and so is [p0]. *)
Theorem overlap_rows_are_distributions (fuel : nat) (tol : R) (self s' : mixture) :
  initialize pinv fuel tol self = Return s' ->
  (0 < m self)%nat ->
  (forall j, (j < m self)%nat -> 0 < neff self j) ->
  (forall j, (j < m self)%nat -> (0 < n self j)%nat) ->
  (forall j, (j < m s')%nat ->
     rsum (m s') (fun k => Overlap s' j k) = 1 /\
     forall k, 0 < Overlap s' j k /\ Overlap s' j k = pm s' j k) /\
  rsum (m s') (p0 s') = 1 /\
  (forall k, 0 < p0 s' k).
Proof.
  intros Hret Hm Hneff Hn.
  destruct (returned_pi_total pinv fuel tol self s' Hret Hm Hneff) as (Hsum & Hpi).
  destruct (initialize_solved pinv fuel tol self s' Hret)
    as (Hsolved & Hm' & Hn' & _).
  destruct (returned_is_finished fuel tol self s' Hret) as (s & Hs).
  rewrite <- Hm' in Hm. rewrite <- Hm', <- Hn' in Hn.
  assert (forall j k, Overlap s' j k = pm s' j k) as Hov by (subst s'; reflexivity).
  split; [|split].
  - intros j Hj. split.
    + rewrite (rsum_ext _ _ (fun k => pm s' j k)) by (intros; apply Hov).
      apply (pm_total pinv s' O Hsolved Hm Hn j Hj).
    + intros k. split; [|apply Hov]. rewrite Hov.
      destruct Hsolved as (_ & _ & Hpm & _). rewrite Hpm.
      apply (own_pm_pos s' O Hm Hn j k Hj).
  - apply (p0_total pinv s' O Hsolved Hm Hn Hsum).
  - apply (own_p0_pos pinv s' O Hsolved Hm Hpi Hn).
Qed.

End SolverStructure.

(** X3.  The array [B0] that a pass builds from positive mixture weights
    and samples that are not empty is symmetric, has negative entries off
    its diagonal and rows that sum to zero, and its kernel is exactly the
    line of the constant vectors: it is singular, of rank [m - 1]. *)
Theorem B0_is_a_singular_laplacian (self : mixture) :
  (0 < m self)%nat ->
  (forall j, (j < m self)%nat -> 0 < pi self j) ->
  (forall j, (j < m self)%nat -> (0 < n self j)%nat) ->
  (forall k l, nr_B0 self k l = nr_B0 self l k) /\
  (forall k l, k <> l -> nr_B0 self k l < 0) /\
  (forall k, (k < m self)%nat -> matvec (m self) (nr_B0 self) (fun _ => 1) k = 0) /\
  kernel_is_constants (m self) (nr_B0 self).
Proof.
  intros Hm Hpi Hn.
  set (pinv := fun (_ : nat) (A : mat) => A).
  pose proof (pass_solved pinv self) as Hsolved.
  set (s := finish (fst (newton_raphson_iteration pinv self))) in Hsolved.
  split; [intros k l; apply nr_B0_symmetric|]. split; [|split].
  - intros k l Hkl.
    pose proof (Sm_pos pinv s O Hsolved Hm Hpi Hn k l) as H.
    assert (nr_B0 s k l = nr_B0 self k l) as E by reflexivity.
    unfold diag in H.
    destruct (Nat.eqb_spec k l) as [->|_]; [congruence|lra].
  - intros k Hk. unfold matvec.
    rewrite (rsum_ext _ _ (fun l => nr_B0 self k l)) by (intros; ring).
    apply (B0_row_total pinv s O Hsolved Hm k Hk).
  - apply (B0_kernel_is_constants pinv s O Hsolved Hm Hpi Hn).
Qed.

(** ** The pass and the additive constant of [f] *)

Lemma amax_shift (k : nat) (a : nat -> R) (c : R) :
  amax k (fun l => a l + c) = amax k a + c.
Proof.
  induction k as [|k IH]; [reflexivity|].
  destruct k as [|k]; [reflexivity|].
  change (amax (S (S k)) (fun l => a l + c))
    with (Rmax (amax (S k) (fun l => a l + c)) (a (S k) + c)).
  change (amax (S (S k)) a) with (Rmax (amax (S k) a) (a (S k))).
  rewrite IH. unfold Rmax.
  destruct (Rle_dec (amax (S k) a + c) (a (S k) + c));
    destruct (Rle_dec (amax (S k) a) (a (S k))); lra.
Qed.

Section ShiftOfF.

Variable pinv : nat -> mat -> mat.
Variable self : mixture.
Variable c : R.

(** [self] with [self.f + c] for [self.f]. *)
Let shifted : mixture := set_f self (fun k => f self k + c).

Lemma shifted_numer : nr_numer shifted = nr_numer self.
Proof.
  apply functional_extensionality. intros i.
  apply functional_extensionality. intros k.
  apply functional_extensionality. intros t.
  unfold nr_numer, nr_xmax.
  rewrite (functional_extensionality
             (fun l => nr_x shifted i l t) (fun l => nr_x self i l t + c))
    by (intros l; unfold nr_x, nr_g; simpl; ring).
  rewrite amax_shift. f_equal. unfold nr_x, nr_g. simpl. ring.
Qed.

Lemma shifted_P : nr_P shifted = nr_P self.
Proof. unfold nr_P, nr_denom. rewrite shifted_numer. reflexivity. Qed.

Lemma shifted_p0 : nr_p0 shifted = nr_p0 self.
Proof. unfold nr_p0, nr_pm. rewrite shifted_P. reflexivity. Qed.

Lemma shifted_B0 : nr_B0 shifted = nr_B0 self.
Proof. unfold nr_B0. rewrite shifted_p0, shifted_P. reflexivity. Qed.

(** X4.  Adding a constant to every entry of [f] changes nothing that a
    pass computes but the log-normalisers: the posterior matrices, their
    means, [p0], [B0], [iB0] and the returned correction are the same, and
    every [u0] is lowered by the constant. *)
Theorem pass_ignores_constant_in_f :
  let before := newton_raphson_iteration pinv self in
  let after := newton_raphson_iteration pinv (set_f self (fun k => f self k + c)) in
  P (fst after) = P (fst before) /\
  pm (fst after) = pm (fst before) /\
  p0 (fst after) = p0 (fst before) /\
  iB0 (fst after) = iB0 (fst before) /\
  snd after = snd before /\
  forall i t, u0 (fst after) i t = u0 (fst before) i t - c.
Proof.
  cbv zeta. fold shifted. simpl.
  split; [apply shifted_P|].
  split; [unfold nr_pm; rewrite shifted_P; reflexivity|].
  split; [apply shifted_p0|].
  assert (nr_iB0 pinv shifted = nr_iB0 pinv self) as HiB0.
  { unfold nr_iB0. rewrite shifted_B0. reflexivity. }
  split; [exact HiB0|]. split.
  - unfold nr_df_full. rewrite HiB0, shifted_p0. reflexivity.
  - intros i t. unfold nr_u0, nr_denom, nr_xmax. rewrite shifted_numer.
    rewrite (functional_extensionality
               (fun l => nr_x shifted i l t) (fun l => nr_x self i l t + c))
      by (intros l; unfold nr_x, nr_g; simpl; ring).
    rewrite amax_shift. change (m shifted) with (m self). ring.
Qed.

End ShiftOfF.

(** X5.  Subtracting the column maximum before exponentiating is a pure
    stabilisation: whatever the maximum, [exp(-u0[i][t])] is the sum over
    the states of [exp(f_k + log(pi_k) - u_i[k, t])], and the posterior
    probability of state [k] is that state's term times [exp(u0[i][t])]. *)
Theorem log_sum_exp_is_exact (self : mixture) (i k t : nat) :
  (0 < m self)%nat ->
  exp (- nr_u0 self i t)
  = rsum (m self) (fun l => exp (nr_g self l - u self i l t)) /\
  nr_P self i k t = exp (nr_g self k - u self i k t) * exp (nr_u0 self i t).
Proof.
  intros Hm. pose proof (nr_denom_pos self i t Hm) as Hd.
  assert (forall l, exp (nr_g self l - u self i l t)
                    = exp (nr_xmax self i t) * nr_numer self i l t) as Hterm.
  { intros l. unfold nr_numer, nr_x. rewrite <- exp_plus. f_equal. ring. }
  split.
  - unfold nr_u0. rewrite Ropp_involutive, exp_plus, exp_ln by exact Hd.
    rewrite (rsum_ext _ _ (fun l => exp (nr_xmax self i t) * nr_numer self i l t))
      by (intros; apply Hterm).
    rewrite rsum_scal_l. reflexivity.
  - rewrite Hterm. unfold nr_P, nr_u0.
    rewrite Ropp_plus_distr, exp_plus, (exp_Ropp (ln (nr_denom self i t))).
    rewrite exp_ln by exact Hd.
    rewrite exp_Ropp. pose proof (exp_pos (nr_xmax self i t)). field. split; lra.
Qed.

(** ** When the loop stops *)

Section Stopping.

Variable pinv : nat -> mat -> mat.
Variable overlapSampling : nat -> (nat -> nat) -> (nat -> mat) -> vec.

(** X6.  At a solution of the self-consistency equations ([p0 = pi] on the
    states) the full step and the returned correction are zero whatever
    [pinv] returns, so a loop entered there with a tolerance that is not
    negative returns the object as it is, without a turn. *)
Theorem no_correction_at_a_solution (self : mixture) (tol : R) (fuel : nat) :
  (forall k, (k < m self)%nat -> nr_p0 self k = pi self k) ->
  0 <= tol ->
  (forall k, nr_df_full pinv self k = 0) /\
  (forall k, snd (newton_raphson_iteration pinv self) k = 0) /\
  newton_loop pinv (S fuel) tol (fst (newton_raphson_iteration pinv self))
    (snd (newton_raphson_iteration pinv self))
  = Some (fst (newton_raphson_iteration pinv self)).
Proof.
  intros Hfix Htol.
  assert (forall k, nr_df_full pinv self k = 0) as Hfull.
  { intros k. unfold nr_df_full, matvec. apply rsum_zero. intros l Hl.
    rewrite Hfix by exact Hl. ring. }
  assert (forall k, snd (newton_raphson_iteration pinv self) k = 0) as Hdf.
  { intros k. simpl. rewrite !Hfull. ring. }
  split; [exact Hfull|]. split; [exact Hdf|].
  apply newton_loop_spec. exists O. repeat split; [lia|intros j Hj; lia|].
  apply loop_test_within. intros j _.
  change (Rabs (snd (newton_raphson_iteration pinv self) j) <= tol).
  rewrite Hdf, Rabs_R0. exact Htol.
Qed.


(** The first index at which a test fails. *)
Lemma first_failure (test : nat -> bool) (k : nat) :
  test k = false ->
  exists k', (k' <= k)%nat /\ test k' = false /\
             forall j, (j < k')%nat -> test j = true.
Proof.
  induction k as [k IH] using lt_wf_ind. intros Hk.
  destruct (forallb test (seq 0 k)) eqn:Hall.
  - exists k. repeat split; [lia|exact Hk|]. intros j Hj.
    rewrite forallb_forall in Hall. apply Hall, in_seq. lia.
  - assert (exists j, (j < k)%nat /\ test j = false) as (j & Hj & Hjf).
    { clear -Hall. induction k as [|k IHk]; [discriminate|].
      rewrite seq_S, forallb_app in Hall. simpl in Hall.
      destruct (forallb test (seq 0 k)) eqn:E.
      - exists k. split; [lia|]. destruct (test k); [discriminate|reflexivity].
      - destruct (IHk eq_refl) as (j & Hj & Hjf). exists j. split; [lia|exact Hjf]. }
    destruct (IH j Hj Hjf) as (k' & Hk' & Hf & Hbefore).
    exists k'. repeat split; [lia|exact Hf|exact Hbefore].
Qed.

Lemma any_above_monotone (len : nat) (df : vec) (tol tol' : R) :
  tol <= tol' -> any_above len df tol = false -> any_above len df tol' = false.
Proof.
  intros Hle H. apply any_above_false. apply any_above_false in H.
  intros j Hj. specialize (H j Hj). lra.
Qed.

(** X8.  The passes do not depend on the tolerance, only the stop does: a
    constructor that returns with tolerance [tol] returns with every larger
    tolerance and the same fuel, after no more turns of the loop. *)
Theorem larger_tolerance_stops_no_later (fuel : nat) (tol tol' : R) (self s1 : mixture) :
  initialize pinv fuel tol self = Return s1 ->
  tol <= tol' ->
  exists k k' s2,
    (k' <= k)%nat /\ (k < fuel)%nat /\
    s1 = finish (fst (after_turns pinv k (loop_entry pinv self))) /\
    initialize pinv fuel tol' self = Return s2 /\
    s2 = finish (fst (after_turns pinv k' (loop_entry pinv self))).
Proof.
  intros Hret Hle. apply initialize_spec in Hret.
  destruct Hret as (k & Hk & Hlt & Hstop & ->).
  assert (loop_test tol' (after_turns pinv k (loop_entry pinv self)) = false) as Hstop'.
  { apply (any_above_monotone _ _ tol tol' Hle Hstop). }
  destruct (first_failure
              (fun j => loop_test tol' (after_turns pinv j (loop_entry pinv self)))
              k Hstop') as (k' & Hk' & Hf & Hbefore).
  exists k, k'. eexists. split; [exact Hk'|]. split; [exact Hk|].
  split; [reflexivity|]. split; [|reflexivity].
  apply initialize_spec. exists k'. split; [lia|]. split; [exact Hbefore|].
  split; [exact Hf|reflexivity].
Qed.

(** X9.  What the stop guarantees.  In a returned object, built from samples
    that are not empty and have positive effective sizes, with [pinv]
    returning the Moore-Penrose pseudo-inverse of the last [B0] and a
    tolerance that is not negative, every self-consistency equation holds
    up to the tolerance, relative to twice [p0]; with tolerance zero the
    equations hold exactly. *)
Theorem returned_object_nearly_solves_the_equations (fuel : nat) (tol : R)
    (self s' : mixture) :
  initialize pinv fuel tol self = Return s' ->
  0 <= tol ->
  (0 < m self)%nat ->
  (forall j, (j < m self)%nat -> 0 < neff self j) ->
  (forall j, (j < m self)%nat -> (0 < n self j)%nat) ->
  penrose (m s') (nr_B0 s') (pinv (m s') (nr_B0 s')) ->
  (forall i, (i < m s')%nat -> Rabs (pi s' i - p0 s' i) <= 2 * tol * p0 s' i) /\
  (tol = 0 -> forall i, (i < m s')%nat -> p0 s' i = pi s' i).
Proof.
  intros Hret Htol Hm Hneff Hn Hpen.
  destruct (returned_pi_total pinv fuel tol self s' Hret Hm Hneff) as (Hsum & Hpi).
  destruct (initialize_solved pinv fuel tol self s' Hret)
    as (Hsolved & Hm' & Hn' & _ & _ & Hdf).
  rewrite <- Hm' in Hdf. rewrite <- Hm', <- Hn' in Hn.
  assert (penrose (m s') (nr_B0 s') (iB0 s')) as Hpen'.
  { destruct Hsolved as (_ & _ & _ & _ & HiB0 & _). rewrite HiB0. exact Hpen. }
  assert (forall i, (i < m s')%nat -> Rabs (pi s' i - p0 s' i) <= 2 * tol * p0 s' i)
    as Hres.
  { intros i Hi.
    apply (residual_within pinv s' i Hsolved Hi Hpi Hn Hsum Hpen' tol Htol Hdf). }
  split; [exact Hres|]. intros H0 i Hi. specialize (Hres i Hi). rewrite H0 in Hres.
  replace (2 * 0 * p0 s' i) with 0 in Hres by ring.
  pose proof (Rabs_pos (pi s' i - p0 s' i)) as Hpos.
  assert (Rabs (pi s' i - p0 s' i) = 0) as Hz by lra.
  unfold Rabs in Hz. destruct (Rcase_abs (pi s' i - p0 s' i)); lra.
Qed.

End Stopping.

(** * Further properties of the reports *)

(** X10.  Changing the reference state of [free_energies] subtracts a
    constant: the free energies relative to [r'] are those relative to [r]
    minus the entry of [r'], and the entry of [r'] relative to [r] is the
    opposite of the entry of [r] relative to [r']. *)
Theorem free_energies_change_of_reference (self : mixture) (r r' : nat) :
  (r < m self)%nat -> (r' < m self)%nat ->
  exists fs dfs fs' dfs',
    free_energies self r = Return (fs, dfs) /\
    free_energies self r' = Return (fs', dfs') /\
    (forall k, fs' k = fs k - fs r') /\
    fs r' = - fs' r.
Proof.
  intros Hr Hr'. unfold free_energies.
  destruct (Nat.ltb_spec r (m self)) as [_|]; [|lia].
  destruct (Nat.ltb_spec r' (m self)) as [_|]; [|lia].
  eexists. eexists. eexists. eexists.
  split; [reflexivity|]. split; [reflexivity|]. cbv beta zeta.
  split; [intros k|]; ring.
Qed.

Section ReportedErrors.

Variable pinv : nat -> mat -> mat.

Lemma Theta_symmetric (self : mixture) (x z : nat) :
  solved pinv self -> penrose (m self) (nr_B0 self) (iB0 self) ->
  (x < m self)%nat -> (z < m self)%nat -> Theta self x z = Theta self z x.
Proof.
  intros Hsolved Hpen Hx Hz.
  rewrite (own_Theta pinv self Hsolved Hpen x z Hx).
  rewrite (own_Theta pinv self Hsolved Hpen z x Hz).
  apply bil_sym. intros a l _ _. apply (Sp0_symmetric pinv self Hsolved).
Qed.

(** X11.  In a returned object, with [pinv] returning the Moore-Penrose
    pseudo-inverse of the last [B0], the covariance [Theta] is symmetric,
    and so the standard error that [free_energies] reports for state [k]
    relative to [r] is the one it reports for [r] relative to [k]. *)
Theorem reported_error_is_symmetric (fuel : nat) (tol : R) (self s' : mixture)
    (r k : nat) :
  initialize pinv fuel tol self = Return s' ->
  penrose (m s') (nr_B0 s') (pinv (m s') (nr_B0 s')) ->
  (r < m s')%nat -> (k < m s')%nat ->
  Theta s' r k = Theta s' k r /\
  exists fs_r dfs_r fs_k dfs_k,
    free_energies s' r = Return (fs_r, dfs_r) /\
    free_energies s' k = Return (fs_k, dfs_k) /\
    dfs_r k = dfs_k r.
Proof.
  intros Hret Hpen Hr Hk.
  destruct (initialize_solved pinv fuel tol self s' Hret) as (Hsolved & _).
  assert (penrose (m s') (nr_B0 s') (iB0 s')) as Hpen'.
  { destruct Hsolved as (_ & _ & _ & _ & HiB0 & _). rewrite HiB0. exact Hpen. }
  pose proof (Theta_symmetric s' r k Hsolved Hpen' Hr Hk) as Hsym.
  split; [exact Hsym|]. unfold free_energies.
  destruct (Nat.ltb_spec r (m s')) as [_|]; [|lia].
  destruct (Nat.ltb_spec k (m s')) as [_|]; [|lia].
  eexists. eexists. eexists. eexists.
  split; [reflexivity|]. split; [reflexivity|]. cbv beta zeta.
  f_equal. rewrite Hsym. ring.
Qed.

End ReportedErrors.

(** ** Reweighted expectations *)

Section Expectations.

Variable self : mixture.
Variable u_t : nat -> vec.

Hypothesis m_pos : (0 < m self)%nat.
Hypothesis pi_pos : forall j, (j < m self)%nat -> 0 < pi self j.
Hypothesis n_pos : forall j, (j < m self)%nat -> (0 < n self j)%nat.

Lemma tgt_w_pos (j t : nat) : 0 < tgt_w self u_t j t.
Proof. apply exp_pos. Qed.

Lemma mean_weight_pos (j : nat) :
  (j < m self)%nat -> 0 < mean (n self j) (tgt_w self u_t j).
Proof.
  intros Hj. unfold mean. apply Rdiv_lt_0_compat.
  - apply rsum_pos; [apply n_pos, Hj|]. intros t _. apply tgt_w_pos.
  - apply lt_0_INR, n_pos, Hj.
Qed.

Lemma total_weight_pos :
  0 < rsum (m self) (fun j => pi self j * mean (n self j) (tgt_w self u_t j)).
Proof.
  apply rsum_pos; [exact m_pos|]. intros j Hj.
  apply Rmult_lt_0_compat; [apply pi_pos, Hj|apply mean_weight_pos, Hj].
Qed.

Lemma tgt_iw0_pos : 0 < tgt_iw0 self u_t.
Proof.
  unfold tgt_iw0. apply Rdiv_lt_0_compat; [lra|apply total_weight_pos].
Qed.

Lemma weighted_mean_le (j a : nat) (y : nat -> mat) (hi : R) :
  (j < m self)%nat ->
  (forall t, (t < n self j)%nat -> y j a t <= hi) ->
  mean (n self j) (rw_z self u_t y j a) <= hi * mean (n self j) (tgt_w self u_t j).
Proof.
  intros Hj Hy. unfold mean, Rdiv. rewrite <- Rmult_assoc.
  apply Rmult_le_compat_r.
  - left. apply Rinv_0_lt_compat, lt_0_INR, n_pos, Hj.
  - rewrite <- rsum_scal_l. apply rsum_le. intros t Ht. unfold rw_z.
    pose proof (tgt_w_pos j t). specialize (Hy t Ht). nra.
Qed.

Lemma weighted_mean_ge (j a : nat) (y : nat -> mat) (lo : R) :
  (j < m self)%nat ->
  (forall t, (t < n self j)%nat -> lo <= y j a t) ->
  lo * mean (n self j) (tgt_w self u_t j) <= mean (n self j) (rw_z self u_t y j a).
Proof.
  intros Hj Hy. unfold mean, Rdiv. rewrite <- Rmult_assoc.
  apply Rmult_le_compat_r.
  - left. apply Rinv_0_lt_compat, lt_0_INR, n_pos, Hj.
  - rewrite <- rsum_scal_l. apply rsum_le. intros t Ht. unfold rw_z.
    pose proof (tgt_w_pos j t). specialize (Hy t Ht). nra.
Qed.

(** X12.  With positive mixture weights and samples that are not empty, a
    reweighted expectation is an average of the property values with
    positive weights: it lies between any two bounds of the values of the
    property, and a property that is constant is returned as it is. *)
Theorem reweighted_expectation_is_an_average (ref ny a : nat) (y : nat -> mat)
    (lo hi : R) :
  (ref < m self)%nat -> (a < ny)%nat ->
  (forall j t, (j < m self)%nat -> (t < n self j)%nat -> lo <= y j a t <= hi) ->
  exists yu Theta_u,
    reweight self u_t ref ny y = Return (yu, Theta_u) /\
    lo <= yu (S a) <= hi /\
    (lo = hi -> yu (S a) = lo).
Proof.
  intros Href Ha Hy. unfold reweight.
  destruct (Nat.ltb_spec ref (m self)) as [_|]; [|lia].
  eexists. eexists. split; [reflexivity|]. cbv beta.
  change (S a <? 1)%nat with false. cbv iota.
  replace (S a - 1)%nat with a by lia.
  pose proof total_weight_pos as HW.
  set (W := rsum (m self) (fun j => pi self j * mean (n self j) (tgt_w self u_t j))) in *.
  assert (lo * W <= rsum (m self) (fun j => pi self j * mean (n self j) (rw_z self u_t y j a))
          <= hi * W) as [Hlo Hhi].
  { unfold W. rewrite <- !rsum_scal_l. split; apply rsum_le; intros j Hj.
    - pose proof (weighted_mean_ge j a y lo Hj (fun t Ht => proj1 (Hy j t Hj Ht))).
      pose proof (pi_pos j Hj). nra.
    - pose proof (weighted_mean_le j a y hi Hj (fun t Ht => proj2 (Hy j t Hj Ht))).
      pose proof (pi_pos j Hj). nra. }
  assert (lo <= rw_yu self u_t y a <= hi) as Hb.
  { unfold rw_yu, tgt_iw0. fold W. unfold Rdiv. rewrite Rmult_1_l. split.
    - apply Rmult_le_reg_r with W; [exact HW|].
      rewrite Rmult_assoc, Rinv_l by lra. lra.
    - apply Rmult_le_reg_r with W; [exact HW|].
      rewrite Rmult_assoc, Rinv_l by lra. lra. }
  split; [exact Hb|]. intros E. lra.
Qed.

End Expectations.

(** X13.  The free-energy entry of the reweighted vector does not depend on
    the properties, and the property entries are linear in the properties. *)
Theorem reweighted_expectation_is_linear (self : mixture) (u_t : nat -> vec)
    (ref ny : nat) (y1 y2 : nat -> mat) (alpha beta : R) :
  (ref < m self)%nat ->
  exists v v1 v2 T T1 T2,
    reweight self u_t ref ny (fun j a t => alpha * y1 j a t + beta * y2 j a t)
    = Return (v, T) /\
    reweight self u_t ref ny y1 = Return (v1, T1) /\
    reweight self u_t ref ny y2 = Return (v2, T2) /\
    v O = v1 O /\ v O = v2 O /\
    forall a, v (S a) = alpha * v1 (S a) + beta * v2 (S a).
Proof.
  intros Href. unfold reweight.
  destruct (Nat.ltb_spec ref (m self)) as [_|]; [|lia].
  eexists. eexists. eexists. eexists. eexists. eexists.
  split; [reflexivity|]. split; [reflexivity|]. split; [reflexivity|].
  cbv beta. split; [reflexivity|]. split; [reflexivity|].
  intros a. change (S a <? 1)%nat with false. cbv iota. unfold rw_yu.
  rewrite <- !Rmult_assoc, <- Rmult_plus_distr_r. f_equal.
  rewrite <- !rsum_scal_l, <- rsum_plus. apply rsum_ext. intros j _.
  unfold mean, Rdiv.
  rewrite (rsum_ext _ (rw_z self u_t (fun j a t => alpha * y1 j a t + beta * y2 j a t)
                         j (S a - 1)%nat)
             (fun t => alpha * rw_z self u_t y1 j (S a - 1)%nat t
                       + beta * rw_z self u_t y2 j (S a - 1)%nat t))
    by (intros; unfold rw_z; ring).
  rewrite rsum_plus, !rsum_scal_l. ring.
Qed.

(** ** A constant added to the target potential *)

Section TargetShift.

Variable self : mixture.
Variable u_t : nat -> vec.
Variable c : R.

Hypothesis m_pos : (0 < m self)%nat.
Hypothesis pi_pos : forall j, (j < m self)%nat -> 0 < pi self j.
Hypothesis n_pos : forall j, (j < m self)%nat -> (0 < n self j)%nat.

Lemma shift_w (j t : nat) :
  tgt_w self (fun j t => u_t j t + c) j t = exp (- c) * tgt_w self u_t j t.
Proof. unfold tgt_w. rewrite <- exp_plus. f_equal. ring. Qed.

Lemma shift_mean_w (j : nat) :
  mean (n self j) (tgt_w self (fun j t => u_t j t + c) j)
  = exp (- c) * mean (n self j) (tgt_w self u_t j).
Proof.
  unfold mean.
  rewrite (rsum_ext _ _ (fun t => exp (- c) * tgt_w self u_t j t))
    by (intros; apply shift_w).
  rewrite rsum_scal_l. unfold Rdiv. ring.
Qed.

Lemma shift_iw0 :
  tgt_iw0 self (fun j t => u_t j t + c) = exp c * tgt_iw0 self u_t.
Proof.
  pose proof (total_weight_pos self u_t m_pos pi_pos n_pos) as HW.
  unfold tgt_iw0.
  rewrite (rsum_ext _ _ (fun j =>
    exp (- c) * (pi self j * mean (n self j) (tgt_w self u_t j)))).
  2:{ intros j _. rewrite shift_mean_w. ring. }
  rewrite rsum_scal_l, exp_Ropp. pose proof (exp_pos c). field. split; lra.
Qed.

Lemma shift_f (ref : nat) :
  tgt_f self (fun j t => u_t j t + c) ref = tgt_f self u_t ref + c.
Proof.
  unfold tgt_f. rewrite shift_iw0.
  rewrite ln_mult by (try apply exp_pos; apply tgt_iw0_pos; assumption).
  rewrite ln_exp. ring.
Qed.

Lemma shift_cancel : exp (- c) * exp c = 1.
Proof. rewrite <- exp_plus. replace (- c + c) with 0 by ring. apply exp_0. Qed.

Lemma shift_yu (y : nat -> mat) (a : nat) :
  rw_yu self (fun j t => u_t j t + c) y a = rw_yu self u_t y a.
Proof.
  unfold rw_yu. rewrite shift_iw0.
  rewrite (rsum_ext _ _ (fun j =>
    exp (- c) * (pi self j * mean (n self j) (rw_z self u_t y j a)))).
  2:{ intros j _. unfold mean.
      rewrite (rsum_ext _ _ (fun t => exp (- c) * rw_z self u_t y j a t)).
      - rewrite rsum_scal_l. unfold Rdiv. ring.
      - intros t _. unfold rw_z. rewrite shift_w. ring. }
  rewrite rsum_scal_l.
  transitivity (exp (- c) * exp c
                * (rsum (m self) (fun j => pi self j * mean (n self j) (rw_z self u_t y j a))
                   * tgt_iw0 self u_t)); [ring|].
  rewrite shift_cancel. ring.
Qed.

Lemma shift_pu (k : nat) :
  tgt_pu self (fun j t => u_t j t + c) k = tgt_pu self u_t k.
Proof.
  unfold tgt_pu. rewrite shift_iw0.
  rewrite (rsum_ext _ _ (fun j =>
    exp (- c) * (pi self j * mean (n self j) (fun t => tgt_w self u_t j t * P self j k t)))).
  2:{ intros j _. unfold mean.
      rewrite (rsum_ext _ _ (fun t => exp (- c) * (tgt_w self u_t j t * P self j k t))).
      - rewrite rsum_scal_l. unfold Rdiv. ring.
      - intros t _. rewrite shift_w. ring. }
  rewrite rsum_scal_l.
  transitivity (exp (- c) * exp c
                * (rsum (m self) (fun j =>
                     pi self j * mean (n self j) (fun t => tgt_w self u_t j t * P self j k t))
                   * tgt_iw0 self u_t)); [ring|].
  rewrite shift_cancel. ring.
Qed.

Lemma shift_block_dev (j bsz a q : nat) :
  block_dev bsz (as_row (tgt_w self (fun j t => u_t j t + c) j))
    (pt_wm self (fun j t => u_t j t + c) j) a q
  = exp (- c) * block_dev bsz (as_row (tgt_w self u_t j)) (pt_wm self u_t j) a q.
Proof.
  unfold block_dev, as_row, pt_wm. rewrite shift_mean_w.
  rewrite (rsum_ext _ _ (fun t => exp (- c) * tgt_w self u_t j (q * bsz + t)%nat))
    by (intros; apply shift_w).
  rewrite rsum_scal_l. unfold Rdiv. ring.
Qed.

Lemma shift_Sp0w0 (k a : nat) :
  pt_Sp0w0 self (fun j t => u_t j t + c) k a = exp (- c) * pt_Sp0w0 self u_t k a.
Proof.
  unfold pt_Sp0w0. rewrite <- rsum_scal_l. apply rsum_ext. intros j _.
  unfold cross_covariance. cbv zeta.
  rewrite (rsum_ext _ _ (fun q =>
    exp (- c) * (block_dev (b self j) (P self j) (pm self j) k q
                 * block_dev (b self j) (as_row (tgt_w self u_t j)) (pt_wm self u_t j) a q))).
  2:{ intros q _. rewrite shift_block_dev. ring. }
  rewrite rsum_scal_l. unfold Rdiv. ring.
Qed.

Lemma shift_Sw0 (a a' : nat) :
  pt_Sw0 self (fun j t => u_t j t + c) a a'
  = exp (- c) * exp (- c) * pt_Sw0 self u_t a a'.
Proof.
  unfold pt_Sw0. rewrite <- rsum_scal_l. apply rsum_ext. intros j _.
  unfold covariance, cross_covariance. cbv zeta.
  rewrite (rsum_ext _ _ (fun q =>
    exp (- c) * exp (- c)
    * (block_dev (b self j) (as_row (tgt_w self u_t j)) (pt_wm self u_t j) a q
       * block_dev (b self j) (as_row (tgt_w self u_t j)) (pt_wm self u_t j) a' q))).
  2:{ intros q _. rewrite !shift_block_dev. ring. }
  rewrite rsum_scal_l. unfold Rdiv. ring.
Qed.

Lemma shift_G (ref a : nat) :
  pt_G self (fun j t => u_t j t + c) ref a
  = (if (a <? m self)%nat then 1 else exp c) * pt_G self u_t ref a.
Proof.
  unfold pt_G. destruct (a <? m self)%nat.
  - rewrite Rmult_1_l. unfold matvec. apply rsum_ext. intros l _.
    unfold tgt_pu_ref. rewrite shift_pu. reflexivity.
  - apply shift_iw0.
Qed.

Lemma shift_Ss0 (a l : nat) :
  pt_Ss0 self (fun j t => u_t j t + c) a l
  = (if (a <? m self)%nat then 1 else exp (- c))
    * (if (l <? m self)%nat then 1 else exp (- c)) * pt_Ss0 self u_t a l.
Proof.
  unfold pt_Ss0, block2x2, transpose.
  destruct (a <? m self)%nat; destruct (l <? m self)%nat.
  - ring.
  - rewrite shift_Sp0w0. ring.
  - rewrite shift_Sp0w0. ring.
  - rewrite shift_Sw0. ring.
Qed.

Lemma shift_var (ref : nat) :
  pt_var self (fun j t => u_t j t + c) ref = pt_var self u_t ref.
Proof.
  pose proof shift_cancel as E.
  unfold pt_var. apply rsum_ext. intros l _.
  rewrite (rsum_ext _ (fun a => pt_G self (fun j t => u_t j t + c) ref a
                                * pt_Ss0 self (fun j t => u_t j t + c) a l)
             (fun a => (if (l <? m self)%nat then 1 else exp (- c))
                       * (pt_G self u_t ref a * pt_Ss0 self u_t a l))).
  2:{ intros a _. rewrite shift_G, shift_Ss0.
      destruct (a <? m self)%nat; [ring|].
      transitivity (exp (- c) * exp c
                    * ((if (l <? m self)%nat then 1 else exp (- c))
                       * (pt_G self u_t ref a * pt_Ss0 self u_t a l))); [ring|].
      rewrite E. ring. }
  rewrite rsum_scal_l, shift_G.
  destruct (l <? m self)%nat; [ring|].
  transitivity (exp (- c) * exp c
                * (rsum (m self + 1) (fun a => pt_G self u_t ref a * pt_Ss0 self u_t a l)
                   * pt_G self u_t ref l)); [ring|].
  rewrite E. ring.
Qed.

End TargetShift.

(** X14.  With positive mixture weights and samples that are not empty,
    adding a constant to the target potential adds that constant to the
    free energy which [__reweight__] and [__perturb__] return, and leaves
    every reweighted expectation as it was. *)
Theorem constant_in_target_potential_shifts_free_energy (self : mixture)
    (u_t : nat -> vec) (c : R) (ref ny : nat) (y : nat -> mat) :
  (0 < m self)%nat ->
  (forall j, (j < m self)%nat -> 0 < pi self j) ->
  (forall j, (j < m self)%nat -> (0 < n self j)%nat) ->
  (ref < m self)%nat ->
  exists v T v' T' fu dfu fu' dfu',
    reweight self u_t ref ny y = Return (v, T) /\
    reweight self (fun j t => u_t j t + c) ref ny y = Return (v', T') /\
    perturb self u_t ref = Return (fu, dfu) /\
    perturb self (fun j t => u_t j t + c) ref = Return (fu', dfu') /\
    v' O = v O + c /\ (forall a, v' (S a) = v (S a)) /\ fu' = fu + c.
Proof.
  intros Hm Hpi Hn Href. unfold reweight, perturb.
  destruct (Nat.ltb_spec ref (m self)) as [_|]; [|lia].
  do 8 eexists.
  split; [reflexivity|]. split; [reflexivity|]. split; [reflexivity|].
  split; [reflexivity|]. cbv beta.
  split; [|split].
  - change (0 <? 1)%nat with true. cbv iota. apply shift_f; assumption.
  - intros a. change (S a <? 1)%nat with false. cbv iota. apply shift_yu; assumption.
  - apply shift_f; assumption.
Qed.

(** X15.  Under the same conditions the standard error which [__perturb__]
    returns does not change when a constant is added to the target
    potential. *)
Theorem constant_in_target_potential_keeps_error (self : mixture)
    (u_t : nat -> vec) (c : R) (ref : nat) :
  (0 < m self)%nat ->
  (forall j, (j < m self)%nat -> 0 < pi self j) ->
  (forall j, (j < m self)%nat -> (0 < n self j)%nat) ->
  (ref < m self)%nat ->
  exists fu dfu fu' dfu',
    perturb self u_t ref = Return (fu, dfu) /\
    perturb self (fun j t => u_t j t + c) ref = Return (fu', dfu') /\
    dfu' = dfu.
Proof.
  intros Hm Hpi Hn Href. unfold perturb.
  destruct (Nat.ltb_spec ref (m self)) as [_|]; [|lia].
  do 4 eexists.
  split; [reflexivity|]. split; [reflexivity|].
  f_equal. apply shift_var; assumption.
Qed.

(** * The further properties on the worked example *)

Lemma ex_returns : initialize ex_pinv 1 default_tol ex_mixture = Return ex_final.
Proof. apply ex_initialize. left. apply default_tol_pos. Qed.

Lemma ex_m_pos : (0 < m ex_mixture)%nat.
Proof. simpl. lia. Qed.

Lemma ex_start_pi_pos (j : nat) : (j < m ex_start)%nat -> 0 < pi ex_start j.
Proof. intros Hj. rewrite ex_pi by exact Hj. lra. Qed.

Lemma ex_start_n_pos (j : nat) : (j < m ex_start)%nat -> (0 < n ex_start j)%nat.
Proof. intros Hj. rewrite ex_n by exact Hj. lia. Qed.

Lemma ex_final_pi_pos (j : nat) : (j < m ex_final)%nat -> 0 < pi ex_final j.
Proof. exact (ex_start_pi_pos j). Qed.

Lemma ex_final_n_pos (j : nat) : (j < m ex_final)%nat -> (0 < n ex_final j)%nat.
Proof. exact (ex_start_n_pos j). Qed.

Lemma ex_final_penrose :
  penrose (m ex_final) (nr_B0 ex_final) (ex_pinv (m ex_final) (nr_B0 ex_final)).
Proof. exact ex_penrose. Qed.

(** The composition of the example is a probability vector. *)
Lemma composition_example :
  initialize ex_pinv 1 default_tol ex_mixture = Return ex_final /\
  (0 < m ex_mixture)%nat /\
  (forall j, (j < m ex_mixture)%nat -> 0 < neff ex_mixture j) /\
  rsum (m ex_final) (pi ex_final) = 1.
Proof.
  split; [exact ex_returns|]. split; [exact ex_m_pos|]. split; [exact ex_neff|].
  exact (proj1 (proj2 (composition_is_a_distribution ex_pinv 1%nat default_tol
                         ex_mixture ex_final ex_returns ex_m_pos ex_neff))).
Defined.

(** [p0] of the example is a probability vector. *)
Lemma overlap_example :
  initialize ex_pinv 1 default_tol ex_mixture = Return ex_final /\
  (forall j, (j < m ex_mixture)%nat -> (0 < n ex_mixture j)%nat) /\
  rsum (m ex_final) (p0 ex_final) = 1.
Proof.
  split; [exact ex_returns|]. split; [exact ex_n_pos|].
  exact (proj1 (proj2 (overlap_rows_are_distributions ex_pinv 1%nat default_tol
                         ex_mixture ex_final ex_returns ex_m_pos ex_neff ex_n_pos))).
Defined.

(** [B0] of the first pass of the example has the constants for kernel. *)
Lemma laplacian_example :
  (0 < m ex_start)%nat /\
  (forall j, (j < m ex_start)%nat -> 0 < pi ex_start j) /\
  (forall j, (j < m ex_start)%nat -> (0 < n ex_start j)%nat) /\
  kernel_is_constants (m ex_start) (nr_B0 ex_start).
Proof.
  split; [exact ex_m_pos|]. split; [exact ex_start_pi_pos|].
  split; [exact ex_start_n_pos|].
  exact (proj2 (proj2 (proj2
    (B0_is_a_singular_laplacian ex_start ex_m_pos ex_start_pi_pos ex_start_n_pos)))).
Defined.

(** The log-normaliser of the first configuration of the example. *)
Lemma log_sum_exp_example :
  (0 < m ex_start)%nat /\
  exp (- nr_u0 ex_start O O)
  = rsum (m ex_start) (fun l => exp (nr_g ex_start l - u ex_start O l O)).
Proof.
  split; [exact ex_m_pos|].
  exact (proj1 (log_sum_exp_is_exact ex_start O O O ex_m_pos)).
Defined.

Lemma ex_fixed_point (k : nat) : (k < m ex_start)%nat -> nr_p0 ex_start k = pi ex_start k.
Proof. intros Hk. rewrite ex_p0, ex_pi by exact Hk. reflexivity. Qed.

Lemma default_tol_nonneg : 0 <= default_tol.
Proof. left. apply default_tol_pos. Qed.

Lemma default_tol_le_1 : default_tol <= 1.
Proof. pose proof default_tol_small. lra. Qed.

(** The example starts at a solution: the correction of its first pass is
    zero. *)
Lemma no_correction_example :
  (forall k, (k < m ex_start)%nat -> nr_p0 ex_start k = pi ex_start k) /\
  0 <= default_tol /\
  forall k, snd (newton_raphson_iteration ex_pinv ex_start) k = 0.
Proof.
  split; [exact ex_fixed_point|]. split; [exact default_tol_nonneg|].
  exact (proj1 (proj2 (no_correction_at_a_solution ex_pinv ex_start default_tol O
                         ex_fixed_point default_tol_nonneg))).
Defined.

(** The example with the tolerance [1] in place of the default one. *)
Lemma larger_tolerance_example :
  initialize ex_pinv 1 default_tol ex_mixture = Return ex_final /\
  default_tol <= 1 /\
  exists k k' s2,
    (k' <= k)%nat /\ (k < 1)%nat /\
    ex_final = finish (fst (after_turns ex_pinv k (loop_entry ex_pinv ex_mixture))) /\
    initialize ex_pinv 1 1 ex_mixture = Return s2 /\
    s2 = finish (fst (after_turns ex_pinv k' (loop_entry ex_pinv ex_mixture))).
Proof.
  split; [exact ex_returns|]. split; [exact default_tol_le_1|].
  exact (larger_tolerance_stops_no_later ex_pinv 1%nat default_tol 1 ex_mixture ex_final
           ex_returns default_tol_le_1).
Defined.

(** The returned object of the example solves its equations up to the
    default tolerance. *)
Lemma nearly_solves_example :
  initialize ex_pinv 1 default_tol ex_mixture = Return ex_final /\
  0 <= default_tol /\
  penrose (m ex_final) (nr_B0 ex_final) (ex_pinv (m ex_final) (nr_B0 ex_final)) /\
  forall i, (i < m ex_final)%nat ->
    Rabs (pi ex_final i - p0 ex_final i) <= 2 * default_tol * p0 ex_final i.
Proof.
  split; [exact ex_returns|]. split; [exact default_tol_nonneg|].
  split; [exact ex_final_penrose|].
  exact (proj1 (returned_object_nearly_solves_the_equations ex_pinv 1%nat default_tol
                  ex_mixture ex_final ex_returns default_tol_nonneg ex_m_pos
                  ex_neff ex_n_pos ex_final_penrose)).
Defined.

Lemma ex_final_state_0 : (0 < m ex_final)%nat.
Proof. simpl. lia. Qed.

Lemma ex_final_state_1 : (1 < m ex_final)%nat.
Proof. simpl. lia. Qed.

(** The two states of the example, each as the reference of the other. *)
Lemma change_of_reference_example :
  (0 < m ex_final)%nat /\ (1 < m ex_final)%nat /\
  exists fs dfs fs' dfs',
    free_energies ex_final 0 = Return (fs, dfs) /\
    free_energies ex_final 1 = Return (fs', dfs') /\
    (forall k, fs' k = fs k - fs 1%nat) /\
    fs 1%nat = - fs' O.
Proof.
  split; [exact ex_final_state_0|]. split; [exact ex_final_state_1|].
  exact (free_energies_change_of_reference ex_final O 1%nat
           ex_final_state_0 ex_final_state_1).
Defined.

(** [Theta] of the example is symmetric. *)
Lemma symmetric_error_example :
  initialize ex_pinv 1 default_tol ex_mixture = Return ex_final /\
  penrose (m ex_final) (nr_B0 ex_final) (ex_pinv (m ex_final) (nr_B0 ex_final)) /\
  Theta ex_final O 1%nat = Theta ex_final 1%nat O.
Proof.
  split; [exact ex_returns|]. split; [exact ex_final_penrose|].
  exact (proj1 (reported_error_is_symmetric ex_pinv 1%nat default_tol ex_mixture ex_final
                  O 1%nat ex_returns ex_final_penrose ex_final_state_0 ex_final_state_1)).
Defined.

(** A property that is one on every configuration of the example has
    expectation one under any target potential. *)
Lemma average_example :
  (0 < m ex_final)%nat /\
  (forall j, (j < m ex_final)%nat -> 0 < pi ex_final j) /\
  (forall j, (j < m ex_final)%nat -> (0 < n ex_final j)%nat) /\
  exists yu Theta_u,
    reweight ex_final (fun _ _ => 0) O 1 (fun _ _ _ => 1) = Return (yu, Theta_u) /\
    1 <= yu 1%nat <= 1 /\
    (1 = 1 -> yu 1%nat = 1).
Proof.
  split; [exact ex_final_state_0|]. split; [exact ex_final_pi_pos|].
  split; [exact ex_final_n_pos|].
  apply (reweighted_expectation_is_an_average ex_final (fun _ _ => 0)
           ex_final_state_0 ex_final_pi_pos ex_final_n_pos O 1%nat O (fun _ _ _ => 1) 1 1).
  - exact ex_final_state_0.
  - lia.
  - intros j t _ _. lra.
Defined.

(** Twice a property plus three times another, on the example. *)
Lemma linearity_example :
  (0 < m ex_final)%nat /\
  exists v v1 v2 T T1 T2,
    reweight ex_final (fun _ _ => 0) O 1
      (fun j a t => 2 * (fun _ _ _ => 1) j a t + 3 * (fun _ _ t => INR t) j a t)
    = Return (v, T) /\
    reweight ex_final (fun _ _ => 0) O 1 (fun _ _ _ => 1) = Return (v1, T1) /\
    reweight ex_final (fun _ _ => 0) O 1 (fun _ _ t => INR t) = Return (v2, T2) /\
    v O = v1 O /\ v O = v2 O /\
    forall a, v (S a) = 2 * v1 (S a) + 3 * v2 (S a).
Proof.
  split; [exact ex_final_state_0|].
  exact (reweighted_expectation_is_linear ex_final (fun _ _ => 0) O 1%nat
           (fun _ _ _ => 1) (fun _ _ t => INR t) 2 3 ex_final_state_0).
Defined.

(** The target potential of the example raised by five. *)
Lemma shifted_free_energy_example :
  (0 < m ex_final)%nat /\
  (forall j, (j < m ex_final)%nat -> 0 < pi ex_final j) /\
  (forall j, (j < m ex_final)%nat -> (0 < n ex_final j)%nat) /\
  exists v T v' T' fu dfu fu' dfu',
    reweight ex_final (fun _ _ => 0) O 1 (fun _ _ _ => 1) = Return (v, T) /\
    reweight ex_final (fun j t => (fun _ _ => 0) j t + 5) O 1 (fun _ _ _ => 1)
    = Return (v', T') /\
    perturb ex_final (fun _ _ => 0) O = Return (fu, dfu) /\
    perturb ex_final (fun j t => (fun _ _ => 0) j t + 5) O = Return (fu', dfu') /\
    v' O = v O + 5 /\ (forall a, v' (S a) = v (S a)) /\ fu' = fu + 5.
Proof.
  split; [exact ex_final_state_0|]. split; [exact ex_final_pi_pos|].
  split; [exact ex_final_n_pos|].
  exact (constant_in_target_potential_shifts_free_energy ex_final (fun _ _ => 0) 5
           O 1%nat (fun _ _ _ => 1)
           ex_final_state_0 ex_final_pi_pos ex_final_n_pos ex_final_state_0).
Defined.

(** The same shift leaves the reported error of the example as it was. *)
Lemma shifted_error_example :
  (0 < m ex_final)%nat /\
  (forall j, (j < m ex_final)%nat -> 0 < pi ex_final j) /\
  (forall j, (j < m ex_final)%nat -> (0 < n ex_final j)%nat) /\
  exists fu dfu fu' dfu',
    perturb ex_final (fun _ _ => 0) O = Return (fu, dfu) /\
    perturb ex_final (fun j t => (fun _ _ => 0) j t + 5) O = Return (fu', dfu') /\
    dfu' = dfu.
Proof.
  split; [exact ex_final_state_0|]. split; [exact ex_final_pi_pos|].
  split; [exact ex_final_n_pos|].
  exact (constant_in_target_potential_keeps_error ex_final (fun _ _ => 0) 5 O
           ex_final_state_0 ex_final_pi_pos ex_final_n_pos ex_final_state_0).
Defined.
